(** * A paginated GraphQL-to-MySQL load pipeline

    Shallow embedding of [google-dataflow_template.py]: the fetch stage
    [FetchGraphQLData], the sink stage [InsertToMySQL] with its helpers
    [open_ssh_tunnel] and [insert_data_to_mysql], and the entry point [run].

    Python integers are unbounded, so they are [Z].  Parsed JSON is an
    inductive type.  The fetch generator is a writer-and-exception
    computation whose log is the sequence of its observable events (HTTP
    requests, printed lines, yielded elements).  The sink threads a world
    (tunnel, connection, cursor, table, open transaction, call log) through
    a state-and-exception monad; the external calls may fail according to a
    fault schedule. *)

From Stdlib Require Import ZArith List String Ascii Bool Lia DecimalString.
Import ListNotations.

Set Warnings "-register-all".

Open Scope string_scope.
Open Scope list_scope.
Open Scope Z_scope.

(** ** Monads *)

Class Monad (m : Type -> Type) : Type := {
  ret : forall {A : Type}, A -> m A;
  bind : forall {A B : Type}, m A -> (A -> m B) -> m B
}.

Declare Scope monad_scope.
Delimit Scope monad_scope with monad.
Notation "x <- c1 ;; c2" := (bind c1 (fun x => c2))
  (at level 61, c1 at next level, right associativity) : monad_scope.
Notation "c1 ;; c2" := (bind c1 (fun _ => c2))
  (at level 61, right associativity) : monad_scope.
Open Scope monad_scope.

(** A Python [for x in xs: body]. *)
Fixpoint for_each {m : Type -> Type} {M : Monad m} {A : Type}
    (body : A -> m unit) (xs : list A) : m unit :=
  match xs with
  | [] => ret tt
  | x :: rest => body x ;; for_each body rest
  end.

(** ** Python values, as far as the script touches them *)

Module Py.

(** The value of [response.json()].  Numbers are kept to integers; the
    pairs of a [JObj] are the items of the parsed dict. *)
Inductive json : Type :=
| JNull
| JBool (b : bool)
| JNum (n : Z)
| JStr (s : string)
| JArr (xs : list json)
| JObj (kvs : list (string * json)).

Inductive exn : Type :=
| KeyError (key : string)
| TypeError
| AttributeError
| JSONDecodeError
| RequestException
| SSHTunnelError
| MySQLError.

Fixpoint dict_lookup (key : string) (kvs : list (string * json)) : option json :=
  match kvs with
  | [] => None
  | (k, v) :: rest => if String.eqb key k then Some v else dict_lookup key rest
  end.

(** [obj.get(key, default)]: only a dict has the method. *)
Definition get (obj : json) (key : string) (default : json) : exn + json :=
  match obj with
  | JObj kvs =>
      match dict_lookup key kvs with
      | Some v => inr v
      | None => inr default
      end
  | _ => inl AttributeError
  end.

(** [obj[key]] with a string key. *)
Definition getitem (obj : json) (key : string) : exn + json :=
  match obj with
  | JObj kvs =>
      match dict_lookup key kvs with
      | Some v => inr v
      | None => inl (KeyError key)
      end
  | _ => inl TypeError
  end.

(** Truth value, as tested by [if not v]. *)
Definition truthy (v : json) : bool :=
  match v with
  | JNull => false
  | JBool b => b
  | JNum n => negb (n =? 0)
  | JStr s => negb (String.eqb s "")
  | JArr xs => match xs with [] => false | _ => true end
  | JObj kvs => match kvs with [] => false | _ => true end
  end.

(** The items a [for] loop visits: the elements of a list, the keys of a
    dict, the characters of a string; other values are not iterable. *)
Definition iter (v : json) : exn + list json :=
  match v with
  | JArr xs => inr xs
  | JObj kvs => inr (map (fun kv => JStr (fst kv)) kvs)
  | JStr s => inr (map (fun c => JStr (String c EmptyString)) (list_ascii_of_string s))
  | _ => inl TypeError
  end.

(** The text an f-string gives for an integer. *)
Definition str_of_int (n : Z) : string := NilZero.string_of_int (Z.to_int n).

End Py.
Import Py.

Fixpoint json_eq_dec (a b : json) {struct a} : {a = b} + {a <> b}.
Proof.
  decide equality.
  - apply Bool.bool_dec.
  - apply Z.eq_dec.
  - apply string_dec.
  - apply (list_eq_dec json_eq_dec).
  - apply list_eq_dec. decide equality. apply string_dec.
Defined.

Definition json_eqb (a b : json) : bool :=
  if json_eq_dec a b then true else false.

(** The element the fetch stage yields and the sink stage consumes:
    [{'nim': ..., 'nama_program_studi': ...}]. *)
Record student : Type := {
  nim : json;
  nama_program_studi : json
}.

Inductive outcome : Type :=
| Returned
| Raised (e : exn)
| OutOfFuel.

(** ** The fetch stage: [FetchGraphQLData] *)

Module FetchGraphQLData.

(** The part of the POST payload that varies: [variables['limit']] and
    [variables['offset']].  Query text, filter and headers are constants. *)
Record Request : Type := {
  rq_limit : Z;
  rq_offset : Z
}.

(** [json_body = None]: the body is not JSON and [response.json()] raises. *)
Record Response : Type := {
  status_code : Z;
  json_body : option json
}.

(** The endpoint, as a function of the request; [None] when
    [requests.post] itself raises. *)
Definition Server : Type := Request -> option Response.

Inductive event : Type :=
| Post (rq : Request)
| Print (line : string)
| Yield (element : student).

(** A generator step: the events so far and either an exception or a value. *)
Definition Gen (A : Type) : Type := (list event * (exn + A))%type.

#[export] Instance Gen_monad : Monad Gen := {|
  ret := fun A a => ([], inr a);
  bind := fun A B c k =>
    match c with
    | (evs, inl e) => (evs, inl e)
    | (evs, inr a) => let (evs', r) := k a in (evs ++ evs', r)
    end
|}.

Definition lift {A : Type} (r : exn + A) : Gen A := ([], r).
Definition emit (ev : event) : Gen unit := ([ev], inr tt).

(** How one pass through the body of [while True] ends. *)
Inductive ctl : Type :=
| Continue
| Break.

Definition failed_line (status : Z) : string :=
  String.append "Request failed with status code " (str_of_int status).

(** [data.get('data', {}).get('data', [])] *)
Definition extract (data : json) : exn + json :=
  match get data "data" (JObj []) with
  | inl e => inl e
  | inr inner => get inner "data" (JArr [])
  end.

Definition response_json (response : Response) : exn + json :=
  match json_body response with
  | Some data => inr data
  | None => inl JSONDecodeError
  end.

Section Process.

Variable api : Server.
Variable query_limit : Z.

Definition post (rq : Request) : Gen Response :=
  ([Post rq], match api rq with
              | Some response => inr response
              | None => inl RequestException
              end).

(** The body of [for item in result_data]. *)
Definition yield_item (item : json) : Gen unit :=
  n <- lift (getitem item "nim") ;;
  p <- lift (getitem item "nama_program_studi") ;;
  emit (Yield {| nim := n; nama_program_studi := p |}).

(** One pass through the body of [while True], lines 72-88, up to the
    cursor update. *)
Definition iteration (offset : Z) : Gen ctl :=
  response <- post {| rq_limit := query_limit; rq_offset := offset |} ;;
  if negb (status_code response =? 200) then
    emit (Print (failed_line (status_code response))) ;;
    ret Break
  else
    data <- lift (response_json response) ;;
    result_data <- lift (extract data) ;;
    if negb (truthy result_data) then ret Break
    else
      items <- lift (iter result_data) ;;
      for_each yield_item items ;;
      ret Continue.

(** [while True]: after a pass that did not break,
    [variables['offset'] += self.query_limit.get()]. *)
Fixpoint loop (fuel : nat) (offset : Z) : list event * outcome :=
  match fuel with
  | O => ([], OutOfFuel)
  | S fuel' =>
      match iteration offset with
      | (evs, inl e) => (evs, Raised e)
      | (evs, inr Break) => (evs, Returned)
      | (evs, inr Continue) =>
          let (evs', out) := loop fuel' (offset + query_limit) in
          (evs ++ evs', out)
      end
  end.

(** [process(self, element)] for an element whose ['offset'] is an integer:
    [offset = element['offset']]. *)
Definition process (fuel : nat) (element_offset : Z) : list event * outcome :=
  loop fuel element_offset.

End Process.

(** What the element's ['offset'] holds: an integer, or a pipeline option
    that was never resolved with [.get()], a value provider object. *)
Inductive offset_value : Type :=
| IntValue (n : Z)
| ValueProvider (resolves_to : Z).

(** [process(self, element)] for either kind of element.  With an integer
    it is [process] above.  A value provider is stored as it is in
    [variables] (line 68), and [requests.post(..., json=payload)] cannot
    serialise it: the first pass raises TypeError before anything is sent. *)
Definition process_element (api : Server) (query_limit : Z) (fuel : nat)
    (offset : offset_value) : list event * outcome :=
  match offset with
  | IntValue n => process api query_limit fuel n
  | ValueProvider _ =>
      match fuel with
      | O => ([], OutOfFuel)
      | S _ => ([], Raised TypeError)
      end
  end.

(** Projections of a trace. *)
Fixpoint posts (evs : list event) : list Request :=
  match evs with
  | [] => []
  | Post rq :: rest => rq :: posts rest
  | _ :: rest => posts rest
  end.

Fixpoint yields (evs : list event) : list student :=
  match evs with
  | [] => []
  | Yield s :: rest => s :: yields rest
  | _ :: rest => yields rest
  end.

Fixpoint prints (evs : list event) : list string :=
  match evs with
  | [] => []
  | Print s :: rest => s :: prints rest
  | _ :: rest => prints rest
  end.

End FetchGraphQLData.

(** ** The sink stage: [InsertToMySQL] *)

Module InsertToMySQL.

(** An attribute of the DoFn that holds a resource: [None] until
    [start_bundle] assigns it, then an open or a closed handle. *)
Inductive handle : Type :=
| Unset
| Open
| Closed.

(** The calls that leave the process. *)
Inductive call : Type :=
| TunnelStart
| Connect
| NewCursor
| Execute (nim_value prodi_value : json)
| Commit
| CursorClose
| ConnClose
| TunnelStop.

(** [students]: the committed rows of the destination table, oldest first.
    [pending]: rows written by the open transaction and not yet committed
    (the connector does not autocommit).  [calls]: every external call so
    far with whether it succeeded, oldest first.  [stdout]: printed lines. *)
Record World : Type := {
  tunnel : handle;
  conn : handle;
  cursor : handle;
  students : list student;
  pending : list student;
  calls : list (call * bool);
  stdout : list string
}.

Definition set_tunnel (h : handle) (w : World) : World :=
  {| tunnel := h; conn := conn w; cursor := cursor w; students := students w;
     pending := pending w; calls := calls w; stdout := stdout w |}.
Definition set_conn (h : handle) (w : World) : World :=
  {| tunnel := tunnel w; conn := h; cursor := cursor w; students := students w;
     pending := pending w; calls := calls w; stdout := stdout w |}.
Definition set_cursor (h : handle) (w : World) : World :=
  {| tunnel := tunnel w; conn := conn w; cursor := h; students := students w;
     pending := pending w; calls := calls w; stdout := stdout w |}.
Definition set_students (t : list student) (w : World) : World :=
  {| tunnel := tunnel w; conn := conn w; cursor := cursor w; students := t;
     pending := pending w; calls := calls w; stdout := stdout w |}.
Definition set_pending (t : list student) (w : World) : World :=
  {| tunnel := tunnel w; conn := conn w; cursor := cursor w; students := students w;
     pending := t; calls := calls w; stdout := stdout w |}.
Definition log (c : call) (ok : bool) (w : World) : World :=
  {| tunnel := tunnel w; conn := conn w; cursor := cursor w; students := students w;
     pending := pending w; calls := calls w ++ [(c, ok)]; stdout := stdout w |}.
Definition print (line : string) (w : World) : World :=
  {| tunnel := tunnel w; conn := conn w; cursor := cursor w; students := students w;
     pending := pending w; calls := calls w; stdout := stdout w ++ [line] |}.

(** A world in which nothing has been opened yet, over a given table. *)
Definition fresh (table : list student) : World :=
  {| tunnel := Unset; conn := Unset; cursor := Unset; students := table;
     pending := []; calls := []; stdout := [] |}.

(** Modelled from the spec: the schema of the [students] table is not in the
    repository; the spec has it "keyed by the Record's natural identifier",
    so a row with the same [nim] as an existing row is a duplicate key. *)
Definition has_key (key : json) (rows : list student) : bool :=
  existsb (fun row => json_eqb key (nim row)) rows.

(** [INSERT IGNORE INTO students (nim, nama_program_studi) VALUES (%s, %s)]:
    a duplicate key is skipped without an error, another row is appended
    to the open transaction. *)
Definition insert_ignore (nim_value prodi_value : json) (w : World) : World :=
  if has_key nim_value (students w ++ pending w) then w
  else set_pending
         (pending w ++ [{| nim := nim_value; nama_program_studi := prodi_value |}]) w.

Definition commit_pending (w : World) : World :=
  set_pending [] (set_students (students w ++ pending w) w).

Definition M (A : Type) : Type := World -> (exn + A) * World.

#[export] Instance M_monad : Monad M := {|
  ret := fun A a w => (inr a, w);
  bind := fun A B c k w =>
    match c w with
    | (inl e, w') => (inl e, w')
    | (inr a, w') => k a w'
    end
|}.

Section Sink.

(** The fault schedule: [fault k] says that the k-th external call of
    the run (counted from 0) raises. *)
Variable fault : nat -> bool.

(** An external call: it raises [e] when the schedule says so, and has
    its effect otherwise. *)
Definition invoke (c : call) (e : exn) (effect : World -> World) : M unit :=
  fun w =>
    if fault (List.length (calls w)) then (inl e, log c false w)
    else (inr tt, effect (log c true w)).

(** A method that works on a resource: [None] has no such method, a
    closed handle makes the library raise, an open one reaches the
    outside. *)
Definition use (h : World -> handle) (c : call) (e : exn)
    (effect : World -> World) : M unit :=
  fun w =>
    match h w with
    | Unset => (inl AttributeError, w)
    | Closed => (inl e, log c false w)
    | Open => invoke c e effect w
    end.

(** A [close()] or [stop()]: accepted on a handle that is already closed. *)
Definition release (h : World -> handle) (c : call) (e : exn)
    (effect : World -> World) : M unit :=
  fun w =>
    match h w with
    | Unset => (inl AttributeError, w)
    | _ => invoke c e effect w
    end.

(** [open_ssh_tunnel]: build the forwarder and [tunnel.start()]. *)
Definition open_ssh_tunnel : M unit :=
  invoke TunnelStart SSHTunnelError (set_tunnel Open).

(** [insert_data_to_mysql]: [cursor.execute(insert_query, (nim, nama_program_studi))]. *)
Definition insert_data_to_mysql (nim_value prodi_value : json) : M unit :=
  use cursor (Execute nim_value prodi_value) MySQLError
      (insert_ignore nim_value prodi_value).

Definition start_bundle : M unit :=
  open_ssh_tunnel ;;
  invoke Connect MySQLError (fun w => set_pending [] (set_conn Open w)) ;;
  invoke NewCursor MySQLError (set_cursor Open).

Definition process (element : student) : M unit :=
  insert_data_to_mysql (nim element) (nama_program_studi element) ;;
  use conn Commit MySQLError commit_pending.

Definition finish_bundle : M unit :=
  release cursor CursorClose MySQLError (set_cursor Closed) ;;
  release conn ConnClose MySQLError (fun w => set_pending [] (set_conn Closed w)) ;;
  release tunnel TunnelStop SSHTunnelError (set_tunnel Closed).

(** The runner's part of a bundle.  The runner is outside the
    repository; its DoFn lifecycle is: [start_bundle], [process] for each
    element in order, [finish_bundle]; when one of them raises, the
    bundle is abandoned and the exception propagates, and
    [finish_bundle] is not called. *)
Definition run_bundle (elements : list student) : M unit :=
  start_bundle ;;
  for_each process elements ;;
  finish_bundle.

End Sink.

End InsertToMySQL.

(** ** The pipeline: [run] *)

Module Pipeline.
Import FetchGraphQLData InsertToMySQL.

(** What the fused stage does with one event of the fetch generator: a
    yielded element goes straight to the sink's [process]. *)
Definition consume (fault : nat -> bool) (ev : event) : M unit :=
  match ev with
  | Post _ => ret tt
  | Print line => fun w => (inr tt, print line w)
  | Yield element => InsertToMySQL.process fault element
  end.

(** The two ParDo steps applied to one input element.  The runner is
    outside the repository; it is modelled as the fused execution of the two
    steps over the element, which makes one bundle: the sink's
    [start_bundle] runs first, the fetch generator is driven and every
    element it yields is processed by the sink, and [finish_bundle] runs
    when the generator is exhausted.  The script has no handler and no exit
    call: the interpreter exits with 0 when [run] returns and with 1 when an
    exception leaves it.  [None]: the fuel ran out before the end. *)
Definition pipeline (api : Server) (query_limit : Z) (fault : nat -> bool)
    (fuel : nat) (offset : offset_value) (w0 : World) : option (Z * World) :=
  let (evs, out) := process_element api query_limit fuel offset in
  match (start_bundle fault ;; for_each (consume fault) evs) w0 with
  | (inl _, w) => Some (1, w)
  | (inr _, w) =>
      match out with
      | OutOfFuel => None
      | Raised _ => Some (1, w)
      | Returned =>
          match finish_bundle fault w with
          | (inl _, w') => Some (1, w')
          | (inr _, w') => Some (0, w')
          end
      end
  end.

(** [run()]: line 142 builds the input element as
    [{'offset': pipeline_options.query_offset}].  [query_offset] is declared
    with [add_value_provider_argument] (line 24) and, unlike every other
    option, is not resolved with [.get()]: the element holds the value
    provider itself. *)
Definition run (api : Server) (query_limit : Z) (fault : nat -> bool)
    (fuel : nat) (query_offset : Z) (w0 : World) : option (Z * World) :=
  pipeline api query_limit fault fuel (ValueProvider query_offset) w0.

End Pipeline.

(** ** Notions used to state the properties *)

Module Spec.
Import FetchGraphQLData InsertToMySQL.

Definition request (query_limit offset : Z) : Request :=
  {| rq_limit := query_limit; rq_offset := offset |}.

(** The element a list item gives, or the exception its two subscripts raise. *)
Definition as_student (item : json) : exn + student :=
  match getitem item "nim" with
  | inl e => inl e
  | inr n =>
      match getitem item "nama_program_studi" with
      | inl e => inl e
      | inr p => inr {| nim := n; nama_program_studi := p |}
      end
  end.

(** The [for] loop over a page, written out. *)
Fixpoint yield_all (items : list json) : list event * (exn + unit) :=
  match items with
  | [] => ([], inr tt)
  | item :: rest =>
      match as_student item with
      | inl e => ([], inl e)
      | inr s => let (evs, r) := yield_all rest in (Yield s :: evs, r)
      end
  end.

(** The events of [n] consecutive passes of the loop from [offset]. *)
Fixpoint pages (api : Server) (query_limit : Z) (n : nat) (offset : Z) : list event :=
  match n with
  | O => []
  | S n' => fst (iteration api query_limit offset)
            ++ pages api query_limit n' (offset + query_limit)
  end.

(** The first [n] passes from [offset] all reach the cursor update. *)
Definition all_continue (api : Server) (query_limit : Z) (n : nat) (offset : Z) : Prop :=
  forall i : nat, (i < n)%nat ->
    snd (iteration api query_limit (offset + Z.of_nat i * query_limit)) = inr Continue.

(** A schedule without faults. *)
Definition no_fault : nat -> bool := fun _ => false.

(** The table after an [INSERT IGNORE] of one element, and of a list. *)
Definition upsert (table : list student) (s : student) : list student :=
  if has_key (nim s) table then table else table ++ [s].

Definition insert_all (elements : list student) (table : list student) : list student :=
  fold_left upsert elements table.

Definition keys (table : list student) : list json := map nim table.

(** The two calls of a successful [process]. *)
Definition process_calls (s : student) : list (call * bool) :=
  [(Execute (nim s) (nama_program_studi s), true); (Commit, true)].

Definition is_commit (c : call * bool) : bool :=
  match c with (Commit, true) => true | _ => false end.
Definition is_conn_close (c : call * bool) : bool :=
  match fst c with ConnClose => true | _ => false end.
Definition is_tunnel_stop (c : call * bool) : bool :=
  match fst c with TunnelStop => true | _ => false end.
Definition is_cursor_close (c : call * bool) : bool :=
  match fst c with CursorClose => true | _ => false end.
Definition is_write_failure (c : call * bool) : bool :=
  match c with
  | (Execute _ _, false) => true
  | (Commit, false) => true
  | _ => false
  end.

Definition count (p : call * bool -> bool) (l : list (call * bool)) : nat :=
  List.length (filter p l).

(** Whether the database connection is open after a sequence of calls. *)
Fixpoint conn_open_after (l : list (call * bool)) (open : bool) : bool :=
  match l with
  | [] => open
  | (Connect, true) :: rest => conn_open_after rest true
  | (ConnClose, true) :: rest => conn_open_after rest false
  | _ :: rest => conn_open_after rest open
  end.

(** Every [tunnel.stop()] in the log comes when the connection is closed. *)
Definition stop_after_close (l : list (call * bool)) : Prop :=
  forall before after ok,
    l = before ++ (TunnelStop, ok) :: after -> conn_open_after before false = false.

Definition all_ok (l : list (call * bool)) : bool := forallb snd l.

(** The lease is held and no write is pending. *)
Definition leased (w : World) : Prop :=
  tunnel w = Open /\ conn w = Open /\ cursor w = Open /\ pending w = [].

(** The world after a [process] call that succeeded. *)
Definition after_process (s : student) (w : World) : World :=
  {| tunnel := tunnel w; conn := conn w; cursor := cursor w;
     students := upsert (students w) s; pending := [];
     calls := calls w ++ process_calls s; stdout := stdout w |}.

Definition execute_call (s : student) (ok : bool) : call * bool :=
  (Execute (nim s) (nama_program_studi s), ok).

(** No [tunnel.stop()] of the log happens while the connection is open. *)
Fixpoint stops_checked (l : list (call * bool)) (open : bool) : bool :=
  match l with
  | [] => true
  | (TunnelStop, _) :: rest => negb open && stops_checked rest open
  | (Connect, true) :: rest => stops_checked rest true
  | (ConnClose, true) :: rest => stops_checked rest false
  | _ :: rest => stops_checked rest open
  end.

Definition start_calls : list (call * bool) :=
  [(TunnelStart, true); (Connect, true); (NewCursor, true)].

Definition finish_calls : list (call * bool) :=
  [(CursorClose, true); (ConnClose, true); (TunnelStop, true)].

(** The ways [start_bundle] can fail: the calls made, the tunnel and the
    connection it leaves, and the exception. *)
Inductive start_failure : list (call * bool) -> handle -> handle -> exn -> Prop :=
| tunnel_refused :
    start_failure [(TunnelStart, false)] Unset Unset SSHTunnelError
| connect_refused :
    start_failure [(TunnelStart, true); (Connect, false)] Open Unset MySQLError
| cursor_refused :
    start_failure [(TunnelStart, true); (Connect, true); (NewCursor, false)]
                  Open Open MySQLError.

(** The ways [finish_bundle] can fail on a held lease: the calls made, the
    cursor and the connection it leaves, and the exception. *)
Inductive finish_failure : list (call * bool) -> handle -> handle -> exn -> Prop :=
| cursor_close_raised :
    finish_failure [(CursorClose, false)] Open Open MySQLError
| conn_close_raised :
    finish_failure [(CursorClose, true); (ConnClose, false)] Closed Open MySQLError
| tunnel_stop_raised :
    finish_failure [(CursorClose, true); (ConnClose, true); (TunnelStop, false)]
                   Closed Closed SSHTunnelError.

(** The calls of a [process] that raised on element [s]. *)
Inductive process_failure (s : student) : list (call * bool) -> Prop :=
| execute_raised : process_failure s [execute_call s false]
| commit_raised : process_failure s [execute_call s true; (Commit, false)].

(** The ways a bundle over the elements [ys] ends from [fresh T]: the
    result and the world it leaves. *)
Inductive bundle_end (T ys : list student) : exn + unit -> World -> Prop :=
| start_failed l t c e w :
    start_failure l t c e ->
    tunnel w = t -> conn w = c -> cursor w = Unset ->
    students w = T -> calls w = l ->
    bundle_end T ys (inl e) w
| process_failed k s extra w :
    nth_error ys k = Some s -> process_failure s extra ->
    tunnel w = Open -> conn w = Open -> cursor w = Open ->
    students w = insert_all (firstn k ys) T ->
    calls w = start_calls ++ flat_map process_calls (firstn k ys) ++ extra ->
    bundle_end T ys (inl MySQLError) w
| generator_raised e w :
    tunnel w = Open -> conn w = Open -> cursor w = Open ->
    students w = insert_all ys T ->
    calls w = start_calls ++ flat_map process_calls ys ->
    bundle_end T ys (inl e) w
| finish_failed l k c e w :
    finish_failure l k c e ->
    tunnel w = Open -> conn w = c -> cursor w = k ->
    students w = insert_all ys T ->
    calls w = start_calls ++ flat_map process_calls ys ++ l ->
    bundle_end T ys (inl e) w
| finished w :
    tunnel w = Closed -> conn w = Closed -> cursor w = Closed ->
    students w = insert_all ys T ->
    calls w = start_calls ++ flat_map process_calls ys ++ finish_calls ->
    bundle_end T ys (inr tt) w.

Definition exit_status (res : exn + unit) : Z :=
  match res with
  | inl _ => 1
  | inr _ => 0
  end.

(** The list item the endpoint sends for a record, and the 200 response
    that carries a page of records. *)
Definition item_of (s : student) : json :=
  JObj [("nim", nim s); ("nama_program_studi", nama_program_studi s)].

Definition page_of (records : list student) : Response :=
  {| status_code := 200;
     json_body := Some (JObj [("data", JObj [("data", JArr (map item_of records))])]) |}.

(** The endpoint serves the non-empty pages [pss], one per request from
    [offset] on in steps of the limit, and an empty page after them. *)
Fixpoint serves (api : Server) (query_limit offset : Z) (pss : list (list student)) : Prop :=
  match pss with
  | [] => api (request query_limit offset) = Some (page_of [])
  | ps :: rest =>
      ps <> []
      /\ api (request query_limit offset) = Some (page_of ps)
      /\ serves api query_limit (offset + query_limit) rest
  end.

(** The events of fetching the pages [pss] from [offset]: a request and
    the records of each page, and the request that finds the empty page. *)
Fixpoint trace_of (query_limit offset : Z) (pss : list (list student)) : list event :=
  match pss with
  | [] => [Post (request query_limit offset)]
  | ps :: rest =>
      Post (request query_limit offset)
        :: map Yield ps ++ trace_of query_limit (offset + query_limit) rest
  end.

End Spec.

(** ** Sample endpoints, pages and schedules *)

Module Sample.
Import FetchGraphQLData InsertToMySQL Spec.

Definition item (n p : string) : json :=
  JObj [("nim", JStr n); ("nama_program_studi", JStr p)].

Definition elem (n p : string) : student :=
  {| nim := JStr n; nama_program_studi := JStr p |}.

Definition page (items : list json) : option Response :=
  Some {| status_code := 200;
          json_body := Some (JObj [("data", JObj [("data", JArr items)])]) |}.

(** Two records at offset 0, nothing further: the example of the spec. *)
Definition two_then_empty : Server := fun rq =>
  if rq_offset rq =? 0 then page [item "A1" "Informatika"; item "A2" "Fisika"]
  else page [].

(** Pages of two records at offsets 0 and 2, an empty page from 4 on. *)
Definition four_then_empty : Server := fun rq =>
  if rq_offset rq =? 0 then page [item "A1" "Informatika"; item "A2" "Fisika"]
  else if rq_offset rq =? 2 then page [item "A3" "Kimia"; item "A4" "Biologi"]
  else page [].

(** A page at offset 0, then the endpoint answers 500. *)
Definition two_then_500 : Server := fun rq =>
  if rq_offset rq =? 0 then page [item "A1" "Informatika"; item "A2" "Fisika"]
  else Some {| status_code := 500; json_body := None |}.



(** The sixth external call raises: with two elements in the bundle this
    is the [execute] of the second one. *)
Definition second_insert_fails : nat -> bool := fun k => Nat.eqb k 5.

Definition two_records : list student :=
  [elem "A1" "Informatika"; elem "A2" "Fisika"].

End Sample.

(** ** Further scenarios *)

Module Scenario.
Import FetchGraphQLData InsertToMySQL Spec.

(** The database refuses the connection: the second external call raises. *)
Definition connect_refused : nat -> bool := fun k => Nat.eqb k 1.

(** A held lease with nothing written yet. *)
Definition held_lease : World :=
  {| tunnel := Open; conn := Open; cursor := Open; students := [];
     pending := []; calls := start_calls; stdout := [] |}.

(** [cursor.close()] raises on the lease above: the fourth external call. *)
Definition cursor_close_fails : nat -> bool := fun k => Nat.eqb k 3.

(** A page at offset 0, then the endpoint cannot be reached. *)
Definition unreachable_after_first : Server := fun rq =>
  if rq_offset rq =? 0
  then Sample.page [Sample.item "A1" "Informatika"; Sample.item "A2" "Fisika"]
  else None.


(** The same page of two records, whatever is asked. *)
Definition same_page_forever : Server := fun _ =>
  Sample.page [Sample.item "A1" "Informatika"; Sample.item "A2" "Fisika"].


(** An endpoint that serves a page at offsets 0 and -3. *)
Definition served_backwards : Server := fun rq =>
  if rq_offset rq =? 0 then Some (page_of [Sample.elem "A1" "Informatika"])
  else if rq_offset rq =? -3 then Some (page_of [Sample.elem "A2" "Fisika"])
  else Some (page_of []).

(** The pages of [Sample.four_then_empty]. *)
Definition two_pages : list (list student) :=
  [[Sample.elem "A1" "Informatika"; Sample.elem "A2" "Fisika"];
   [Sample.elem "A3" "Kimia"; Sample.elem "A4" "Biologi"]].

End Scenario.

(** ** Proof tools *)

(** Simplifies the right-hand side of an equation. *)
Ltac simpl_rhs H :=
  match type of H with
  | ?l = ?r => let r' := eval cbn in r in change (l = r') in H
  end.


(** Splits the ending of a bundle or a run into its cases and rewrites the
    call log, the table and the handles to what the case says. *)
Ltac bundle_cases H :=
  destruct H as
    [ l t c e w Hfail Htun Hconn Hcur Hstud Hcalls
    | k s extra w Hnth Hfail Htun Hconn Hcur Hstud Hcalls
    | e w Htun Hconn Hcur Hstud Hcalls
    | l k c e w Hfail Htun Hconn Hcur Hstud Hcalls
    | w Htun Hconn Hcur Hstud Hcalls ];
  rewrite ?Hcalls, ?Hstud, ?Htun, ?Hconn, ?Hcur.

(** * Properties *)

Import FetchGraphQLData InsertToMySQL Pipeline Spec.

(** ** The fetch loop *)

Section FetchFacts.

Variable api : Server.
Variable query_limit : Z.

Lemma yield_item_eq item :
  yield_item item = match as_student item with
                    | inl e => ([], inl e)
                    | inr s => ([Yield s], inr tt)
                    end.
Proof.
  unfold yield_item, as_student, lift, emit. cbn.
  destruct (getitem item "nim"); [reflexivity|].
  destruct (getitem item "nama_program_studi"); reflexivity.
Qed.

Lemma for_each_yield_item items :
  for_each yield_item items = yield_all items.
Proof.
  induction items as [|item rest IH]; [reflexivity|].
  cbn [for_each yield_all]. cbn [bind Gen_monad]. rewrite yield_item_eq, IH.
  destruct (as_student item); [reflexivity|].
  destruct (yield_all rest) as [evs r]. destruct r; reflexivity.
Qed.

(** The passes of the loop, case by case. *)

Lemma iteration_no_response offset :
  api (request query_limit offset) = None ->
  iteration api query_limit offset
  = ([Post (request query_limit offset)], inl RequestException).
Proof.
  intros H. unfold iteration, post. fold (request query_limit offset).
  rewrite H. reflexivity.
Qed.

Lemma iteration_non200 offset response :
  api (request query_limit offset) = Some response ->
  status_code response <> 200 ->
  iteration api query_limit offset
  = ([Post (request query_limit offset);
      Print (failed_line (status_code response))], inr Break).
Proof.
  intros H Hs. unfold iteration, post. fold (request query_limit offset).
  rewrite H. cbn. apply Z.eqb_neq in Hs. rewrite Hs. reflexivity.
Qed.

Lemma iteration_200 offset response :
  api (request query_limit offset) = Some response ->
  status_code response = 200 ->
  iteration api query_limit offset
  = match json_body response with
    | None => ([Post (request query_limit offset)], inl JSONDecodeError)
    | Some data =>
        match extract data with
        | inl e => ([Post (request query_limit offset)], inl e)
        | inr result_data =>
            if truthy result_data then
              match iter result_data with
              | inl e => ([Post (request query_limit offset)], inl e)
              | inr items =>
                  (Post (request query_limit offset) :: fst (yield_all items),
                   match snd (yield_all items) with
                   | inl e => inl e
                   | inr _ => inr Continue
                   end)
              end
            else ([Post (request query_limit offset)], inr Break)
        end
    end.
Proof.
  intros H Hs. unfold iteration, post. fold (request query_limit offset).
  rewrite H. cbn. rewrite Hs. cbn.
  unfold response_json, lift. destruct (json_body response) as [data|]; [|reflexivity].
  cbn. destruct (extract data) as [e|rd]; [reflexivity|].
  cbn. destruct (truthy rd); cbn; [|reflexivity].
  destruct (iter rd) as [e|items]; [reflexivity|]. cbn.
  rewrite for_each_yield_item. destruct (yield_all items) as [evs [e|[]]]; cbn; try reflexivity.
  rewrite app_nil_r. reflexivity.
Qed.

(** A pass starts with its request and makes no other. *)
Lemma posts_app evs1 evs2 : posts (evs1 ++ evs2) = posts evs1 ++ posts evs2.
Proof.
  induction evs1 as [|[rq|line|s] evs1 IH]; cbn; rewrite ?IH; reflexivity.
Qed.

Lemma yields_app evs1 evs2 : yields (evs1 ++ evs2) = yields evs1 ++ yields evs2.
Proof.
  induction evs1 as [|[rq|line|s] evs1 IH]; cbn; rewrite ?IH; reflexivity.
Qed.

Lemma prints_app evs1 evs2 : prints (evs1 ++ evs2) = prints evs1 ++ prints evs2.
Proof.
  induction evs1 as [|[rq|line|s] evs1 IH]; cbn; rewrite ?IH; reflexivity.
Qed.

Lemma yield_all_only_yields items :
  posts (fst (yield_all items)) = [] /\ prints (fst (yield_all items)) = [].
Proof.
  induction items as [|item rest [IHp IHq]]; cbn; [auto|].
  destruct (as_student item); cbn; [auto|].
  destruct (yield_all rest) as [evs r]; cbn in *. auto.
Qed.

Lemma posts_iteration offset :
  posts (fst (iteration api query_limit offset)) = [request query_limit offset].
Proof.
  destruct (api (request query_limit offset)) as [response|] eqn:H.
  - destruct (Z.eq_dec (status_code response) 200) as [Hs|Hs].
    + rewrite (iteration_200 _ _ H Hs).
      destruct (json_body response); [|reflexivity].
      destruct (extract j); [reflexivity|].
      destruct (truthy j0); [|reflexivity].
      destruct (iter j0); [reflexivity|].
      cbn. destruct (yield_all_only_yields l) as [-> _]. reflexivity.
    + rewrite (iteration_non200 _ _ H Hs). reflexivity.
  - rewrite (iteration_no_response _ H). reflexivity.
Qed.

(** A pass that reaches the cursor update printed nothing. *)
Lemma prints_iteration offset :
  match snd (iteration api query_limit offset) with
  | inr Continue => prints (fst (iteration api query_limit offset)) = []
  | inr Break =>
      prints (fst (iteration api query_limit offset)) = []
      \/ exists status, status <> 200
           /\ prints (fst (iteration api query_limit offset)) = [failed_line status]
  | inl _ => prints (fst (iteration api query_limit offset)) = []
  end.
Proof.
  destruct (api (request query_limit offset)) as [response|] eqn:H.
  - destruct (Z.eq_dec (status_code response) 200) as [Hs|Hs].
    + rewrite (iteration_200 _ _ H Hs).
      destruct (json_body response); [|reflexivity].
      destruct (extract j); [reflexivity|].
      destruct (truthy j0); [|left; reflexivity].
      destruct (iter j0); [reflexivity|].
      cbn. destruct (yield_all_only_yields l) as [_ Hp].
      destruct (snd (yield_all l)); exact Hp.
    + rewrite (iteration_non200 _ _ H Hs). cbn. right. eauto.
  - rewrite (iteration_no_response _ H). reflexivity.
Qed.

Lemma loop_continue fuel offset :
  snd (iteration api query_limit offset) = inr Continue ->
  loop api query_limit (S fuel) offset
  = (fst (iteration api query_limit offset)
       ++ fst (loop api query_limit fuel (offset + query_limit)),
     snd (loop api query_limit fuel (offset + query_limit))).
Proof.
  intros H. cbn [loop].
  destruct (iteration api query_limit offset) as [evs r]. cbn in H. subst r.
  destruct (loop api query_limit fuel (offset + query_limit)). reflexivity.
Qed.

Lemma loop_break fuel offset :
  snd (iteration api query_limit offset) = inr Break ->
  loop api query_limit (S fuel) offset
  = (fst (iteration api query_limit offset), Returned).
Proof.
  intros H. cbn [loop].
  destruct (iteration api query_limit offset) as [evs r]. cbn in H. subst r.
  reflexivity.
Qed.

Lemma loop_raise fuel offset e :
  snd (iteration api query_limit offset) = inl e ->
  loop api query_limit (S fuel) offset
  = (fst (iteration api query_limit offset), Raised e).
Proof.
  intros H. cbn [loop].
  destruct (iteration api query_limit offset) as [evs r]. cbn in H. subst r.
  reflexivity.
Qed.

Lemma all_continue_tail n offset :
  all_continue api query_limit (S n) offset ->
  snd (iteration api query_limit offset) = inr Continue
  /\ all_continue api query_limit n (offset + query_limit).
Proof.
  intros H. split.
  - specialize (H 0%nat ltac:(lia)). cbn in H.
    replace (offset + 0) with offset in H by lia. exact H.
  - intros i Hi. specialize (H (S i) ltac:(lia)).
    replace (offset + query_limit + Z.of_nat i * query_limit)
      with (offset + Z.of_nat (S i) * query_limit) by lia.
    exact H.
Qed.

(** After [n] passes that continue, the loop is at [offset + n * limit]
    with the events of those passes behind it. *)
Lemma loop_pages n : forall fuel offset,
  all_continue api query_limit n offset ->
  loop api query_limit (n + fuel) offset
  = (pages api query_limit n offset
       ++ fst (loop api query_limit fuel (offset + Z.of_nat n * query_limit)),
     snd (loop api query_limit fuel (offset + Z.of_nat n * query_limit))).
Proof.
  induction n as [|n IH]; intros fuel offset H.
  - cbn. replace (offset + 0) with offset by lia.
    destruct (loop api query_limit fuel offset); reflexivity.
  - apply all_continue_tail in H. destruct H as [H0 Hn].
    replace (S n + fuel)%nat with (S (n + fuel)) by lia.
    rewrite (loop_continue _ _ H0), (IH _ _ Hn). cbn [pages fst snd].
    replace (offset + query_limit + Z.of_nat n * query_limit)
      with (offset + Z.of_nat (S n) * query_limit) by lia.
    rewrite app_assoc. reflexivity.
Qed.

Lemma posts_pages n : forall offset,
  List.length (posts (pages api query_limit n offset)) = n.
Proof.
  induction n as [|n IH]; intros offset; cbn [pages]; [reflexivity|].
  rewrite posts_app, posts_iteration. cbn [app List.length]. rewrite IH. reflexivity.
Qed.

(** The requests of a run, by position. *)
Lemma loop_posts_nth fuel : forall offset k rq,
  nth_error (posts (fst (loop api query_limit fuel offset))) k = Some rq ->
  rq = request query_limit (offset + Z.of_nat k * query_limit).
Proof.
  induction fuel as [|fuel IH]; intros offset k rq H.
  - destruct k; discriminate.
  - destruct (snd (iteration api query_limit offset)) as [e|[|]] eqn:Hc.
    + rewrite (loop_raise _ _ _ Hc) in H. cbn [fst] in H.
      rewrite posts_iteration in H. destruct k as [|[|k]]; try discriminate.
      cbn in H. injection H as <-. f_equal. lia.
    + rewrite (loop_continue _ _ Hc) in H. cbn [fst] in H.
      rewrite posts_app, posts_iteration in H. destruct k as [|k].
      * cbn in H. injection H as <-. f_equal. lia.
      * cbn in H. apply IH in H. subst rq. f_equal. lia.
    + rewrite (loop_break _ _ Hc) in H. cbn [fst] in H.
      rewrite posts_iteration in H. destruct k as [|[|k]]; try discriminate.
      cbn in H. injection H as <-. f_equal. lia.
Qed.

(** A further request is made only after a pass that reached the cursor
    update. *)
Lemma loop_posts_next fuel : forall offset k rq,
  nth_error (posts (fst (loop api query_limit fuel offset))) (S k) = Some rq ->
  snd (iteration api query_limit (offset + Z.of_nat k * query_limit)) = inr Continue.
Proof.
  induction fuel as [|fuel IH]; intros offset k rq H.
  - discriminate.
  - destruct (snd (iteration api query_limit offset)) as [e|[|]] eqn:Hc.
    + rewrite (loop_raise _ _ _ Hc) in H. cbn [fst] in H.
      rewrite posts_iteration in H. destruct k; discriminate.
    + rewrite (loop_continue _ _ Hc) in H. cbn [fst] in H.
      rewrite posts_app, posts_iteration in H. cbn in H. destruct k as [|k].
      * cbn. replace (offset + 0) with offset by lia. exact Hc.
      * apply IH in H.
        replace (offset + Z.of_nat (S k) * query_limit)
          with (offset + query_limit + Z.of_nat k * query_limit) by lia.
        exact H.
    + rewrite (loop_break _ _ Hc) in H. cbn [fst] in H.
      rewrite posts_iteration in H. destruct k; discriminate.
Qed.

(** The only line the fetch stage can print is the failure line of a
    status other than 200, and it prints it at most once. *)
Lemma loop_prints fuel : forall offset,
  prints (fst (loop api query_limit fuel offset)) = []
  \/ exists status, status <> 200
       /\ prints (fst (loop api query_limit fuel offset)) = [failed_line status].
Proof.
  induction fuel as [|fuel IH]; intros offset; [left; reflexivity|].
  pose proof (prints_iteration offset) as Hp.
  destruct (snd (iteration api query_limit offset)) as [e|[|]] eqn:Hc.
  - rewrite (loop_raise _ _ _ Hc). left. exact Hp.
  - rewrite (loop_continue _ _ Hc). cbn [fst]. rewrite prints_app, Hp. apply IH.
  - rewrite (loop_break _ _ Hc). exact Hp.
Qed.

End FetchFacts.

(** ** The sink *)

Section SinkFacts.

Variable fault : nat -> bool.

Lemma process_ok s w :
  leased w ->
  fault (List.length (calls w)) = false ->
  fault (S (List.length (calls w))) = false ->
  InsertToMySQL.process fault s w = (inr tt, after_process s w).
Proof.
  intros (Ht & Hc & Hk & Hp) H1 H2. destruct w as [t c k T p l o]. cbn in *. subst.
  unfold InsertToMySQL.process, insert_data_to_mysql, use, invoke. cbn -[has_key].
  rewrite H1. unfold insert_ignore, after_process, upsert. cbn -[has_key].
  rewrite app_nil_r.
  destruct (has_key (nim s) T); cbn; rewrite length_app; cbn;
    rewrite Nat.add_1_r, H2; unfold commit_pending, set_pending, set_students, log; cbn;
    rewrite <- app_assoc, ?app_nil_r; destruct s; reflexivity.
Qed.

Lemma process_execute_fails s w :
  leased w ->
  fault (List.length (calls w)) = true ->
  InsertToMySQL.process fault s w = (inl MySQLError, log (fst (execute_call s false)) false w).
Proof.
  intros (Ht & Hc & Hk & Hp) H1. destruct w as [t c k T p l o]. cbn in *. subst.
  unfold InsertToMySQL.process, insert_data_to_mysql, use, invoke. cbn.
  rewrite H1. reflexivity.
Qed.

Lemma process_commit_fails s w :
  leased w ->
  fault (List.length (calls w)) = false ->
  fault (S (List.length (calls w))) = true ->
  exists w',
    InsertToMySQL.process fault s w = (inl MySQLError, w')
    /\ tunnel w' = Open /\ conn w' = Open /\ cursor w' = Open
    /\ students w' = students w /\ stdout w' = stdout w
    /\ calls w' = calls w ++ [execute_call s true; (Commit, false)].
Proof.
  intros (Ht & Hc & Hk & Hp) H1 H2. destruct w as [t c k T p l o]. cbn in *. subst.
  unfold InsertToMySQL.process, insert_data_to_mysql, use, invoke. cbn -[has_key].
  rewrite H1. unfold insert_ignore. cbn -[has_key].
  destruct (has_key (nim s) (T ++ [])); cbn; rewrite length_app; cbn;
    rewrite Nat.add_1_r, H2; eexists; (split; [reflexivity|]); cbn;
    rewrite <- app_assoc; repeat split; reflexivity.
Qed.

Lemma leased_after_process s w : leased w -> leased (after_process s w).
Proof. intros (Ht & Hc & Hk & Hp). repeat split; assumption. Qed.

Lemma leased_print line w : leased w -> leased (print line w).
Proof. intros (Ht & Hc & Hk & Hp). repeat split; assumption. Qed.

(** The sink fed with the events of the fetch generator: the elements of
    a prefix are committed, and the loop either reaches the end or stops
    at the first element whose insert or commit raises. *)
Lemma consume_events evs : forall w,
  leased w ->
  exists res w' k extra m,
    for_each (consume fault) evs w = (res, w')
    /\ tunnel w' = Open /\ conn w' = Open /\ cursor w' = Open
    /\ students w' = insert_all (firstn k (yields evs)) (students w)
    /\ calls w' = calls w ++ flat_map process_calls (firstn k (yields evs)) ++ extra
    /\ stdout w' = stdout w ++ firstn m (prints evs)
    /\ ((res = inr tt /\ k = List.length (yields evs) /\ extra = []
         /\ m = List.length (prints evs) /\ pending w' = [])
        \/ (res = inl MySQLError
            /\ exists s, nth_error (yields evs) k = Some s
                 /\ (extra = [execute_call s false]
                     \/ extra = [execute_call s true; (Commit, false)]))).
Proof.
  induction evs as [|ev evs IH]; intros w Hw.
  - exists (inr tt), w, 0%nat, [], 0%nat. destruct Hw as (Ht & Hc & Hk & Hp).
    cbn. rewrite !app_nil_r. repeat split; auto.
    left. repeat split; auto.
  - destruct ev as [rq|line|s].
    + destruct (IH w Hw) as (res & w' & k & extra & m & H). 
      exists res, w', k, extra, m. cbn [for_each consume yields prints].
      cbn [bind M_monad ret]. exact H.
    + destruct (IH (print line w) (leased_print line w Hw))
        as (res & w' & k & extra & m & Hr & Ht & Hc & Hk & Hs & Hl & Ho & Hd).
      exists res, w', k, extra.
      assert (Hfor : for_each (consume fault) (Print line :: evs) w = (res, w'))
        by (cbn [for_each consume bind M_monad]; exact Hr).
      destruct Hd as [(-> & Hk' & He & Hm & Hp) | (-> & Hd)].
      * exists (S m). cbn [yields prints firstn]. cbn in Ho, Hl, Hs.
        rewrite <- app_assoc in Ho. cbn in Ho.
        repeat split; try assumption. left. repeat split; try assumption.
        cbn. rewrite Hm. reflexivity.
      * exists (S m). cbn [yields prints firstn]. cbn in Ho, Hl, Hs.
        rewrite <- app_assoc in Ho. cbn in Ho.
        repeat split; try assumption. right. split; [reflexivity|assumption].
    + cbn [for_each consume yields prints]. cbn [bind M_monad].
      destruct (fault (List.length (calls w))) eqn:H1.
      * rewrite (process_execute_fails s w Hw H1).
        destruct Hw as (Ht & Hc & Hk & Hp).
        exists (inl MySQLError), (log (fst (execute_call s false)) false w), 0%nat,
          [execute_call s false], 0%nat.
        cbn. rewrite app_nil_r. repeat split; auto.
        right. split; [reflexivity|]. exists s. split; [reflexivity|]. left. reflexivity.
      * destruct (fault (S (List.length (calls w)))) eqn:H2.
        -- destruct (process_commit_fails s w Hw H1 H2)
             as (w' & Hr & Ht & Hc & Hk & Hs & Ho & Hl).
           rewrite Hr. exists (inl MySQLError), w', 0%nat,
             [execute_call s true; (Commit, false)], 0%nat.
           cbn [firstn flat_map insert_all fold_left app]. rewrite app_nil_r.
           repeat split; auto.
           right. split; [reflexivity|]. exists s. split; [reflexivity|]. right. reflexivity.
        -- rewrite (process_ok s w Hw H1 H2).
           destruct (IH (after_process s w) (leased_after_process s w Hw))
             as (res & w' & k & extra & m & Hr & Ht & Hc & Hk & Hs & Hl & Ho & Hd).
           exists res, w', (S k), extra, m. cbn in Hs, Hl, Ho.
           cbn [firstn flat_map insert_all fold_left].
           rewrite <- app_assoc in Hl.
           repeat split; try assumption.
           destruct Hd as [(-> & Hk' & He & Hm & Hp) | (-> & Hd)].
           ++ left. repeat split; try assumption. cbn. rewrite Hk'. reflexivity.
           ++ right. split; [reflexivity|]. exact Hd.
Qed.

End SinkFacts.

Section BundleFacts.

Variable fault : nat -> bool.

Lemma bind_split {A B : Type} (a : M A) (b : A -> M B) w :
  (x <- a ;; b x) w = match a w with
                      | (inl e, w') => (inl e, w')
                      | (inr x, w') => b x w'
                      end.
Proof. reflexivity. Qed.

Lemma start_bundle_fresh T :
  (start_bundle fault (fresh T)
   = (inr tt, {| tunnel := Open; conn := Open; cursor := Open; students := T;
                 pending := []; calls := start_calls; stdout := [] |}))
  \/ (exists l t c e,
        start_failure l t c e
        /\ start_bundle fault (fresh T)
           = (inl e, {| tunnel := t; conn := c; cursor := Unset; students := T;
                        pending := []; calls := l; stdout := [] |})).
Proof.
  unfold start_bundle, open_ssh_tunnel, invoke, fresh. cbn.
  destruct (fault 0) eqn:H0; cbn.
  { right. do 4 eexists. split; [constructor 1|reflexivity]. }
  destruct (fault 1) eqn:H1; cbn.
  { right. do 4 eexists. split; [constructor 2|reflexivity]. }
  destruct (fault 2) eqn:H2; cbn.
  { right. do 4 eexists. split; [constructor 3|reflexivity]. }
  left. reflexivity.
Qed.

Lemma finish_bundle_leased w :
  leased w ->
  (finish_bundle fault w
   = (inr tt, {| tunnel := Closed; conn := Closed; cursor := Closed;
                 students := students w; pending := [];
                 calls := calls w ++ finish_calls; stdout := stdout w |}))
  \/ (exists l k c e,
        finish_failure l k c e
        /\ finish_bundle fault w
           = (inl e, {| tunnel := Open; conn := c; cursor := k;
                        students := students w; pending := [];
                        calls := calls w ++ l; stdout := stdout w |})).
Proof.
  intros (Ht & Hc & Hk & Hp). destruct w as [t c k T p l o]. cbn in *. subst.
  unfold finish_bundle, release, invoke. cbn.
  destruct (fault (List.length l)) eqn:H0; cbn.
  { right. do 4 eexists. split; [constructor 1|reflexivity]. }
  rewrite length_app. cbn. rewrite Nat.add_1_r.
  destruct (fault (S (List.length l))) eqn:H1; cbn.
  { right. do 4 eexists. split; [constructor 2|].
    unfold log; cbn. rewrite <- app_assoc. reflexivity. }
  rewrite !length_app. cbn. rewrite !Nat.add_1_r.
  destruct (fault (S (S (List.length l)))) eqn:H2; cbn.
  { right. do 4 eexists. split; [constructor 3|].
    unfold log, set_conn, set_pending, set_cursor; cbn. rewrite <- !app_assoc. reflexivity. }
  left. unfold log, set_conn, set_pending, set_cursor, set_tunnel; cbn.
  rewrite <- !app_assoc. reflexivity.
Qed.

(** [start_bundle] and then the elements of the generator: the three
    ways this part of a bundle ends. *)
Lemma start_and_consume T evs :
  exists res w,
    (start_bundle fault ;; for_each (consume fault) evs) (fresh T) = (res, w)
    /\ ((exists l t c e,
           start_failure l t c e /\ res = inl e
           /\ w = {| tunnel := t; conn := c; cursor := Unset; students := T;
                     pending := []; calls := l; stdout := [] |})
        \/ (exists k s extra m,
              res = inl MySQLError
              /\ nth_error (yields evs) k = Some s /\ process_failure s extra
              /\ tunnel w = Open /\ conn w = Open /\ cursor w = Open
              /\ students w = insert_all (firstn k (yields evs)) T
              /\ calls w = start_calls ++ flat_map process_calls (firstn k (yields evs)) ++ extra
              /\ stdout w = firstn m (prints evs))
        \/ (res = inr tt /\ leased w
            /\ students w = insert_all (yields evs) T
            /\ calls w = start_calls ++ flat_map process_calls (yields evs)
            /\ stdout w = prints evs)).
Proof.
  rewrite bind_split.
  destruct (start_bundle_fresh T) as [Hs | (l & t & c & e & Hf & Hs)]; rewrite Hs.
  - match goal with |- context [for_each _ _ ?w0] => set (w1 := w0) end.
    assert (Hl : leased w1) by (repeat split; reflexivity).
    destruct (consume_events fault evs w1 Hl)
      as (res & w' & k & extra & m & Hr & Ht & Hc & Hk & Hst & Hca & Hso & Hd).
    exists res, w'. split; [exact Hr|]. right.
    destruct Hd as [(-> & -> & -> & -> & Hp) | (-> & s & Hn & He)].
    + right. rewrite firstn_all in Hst, Hca, Hso. rewrite app_nil_r in Hca.
      repeat split; assumption.
    + left. exists k, s, extra, m. repeat split; try assumption.
      destruct He as [-> | ->]; constructor.
  - eexists _, _. split; [reflexivity|]. left. exists l, t, c, e. auto.
Qed.

Lemma consume_yields rs : forall w,
  for_each (consume fault) (map Yield rs) w = for_each (InsertToMySQL.process fault) rs w.
Proof.
  induction rs as [|s rs IH]; intros w; [reflexivity|].
  cbn [map for_each]. rewrite !bind_split. cbn [consume].
  destruct (InsertToMySQL.process fault s w) as [[e|[]] w']; [reflexivity|apply IH].
Qed.

Lemma yields_map_Yield rs : yields (map Yield rs) = rs.
Proof. induction rs as [|s rs IH]; cbn; rewrite ?IH; reflexivity. Qed.

Lemma prints_map_Yield rs : prints (map Yield rs) = [].
Proof. induction rs as [|s rs IH]; cbn; rewrite ?IH; reflexivity. Qed.

Lemma run_bundle_split rs w :
  run_bundle fault rs w
  = match (start_bundle fault ;; for_each (consume fault) (map Yield rs)) w with
    | (inl e, w') => (inl e, w')
    | (inr _, w') => finish_bundle fault w'
    end.
Proof.
  unfold run_bundle. rewrite !bind_split.
  destruct (start_bundle fault w) as [[e|[]] w1]; [reflexivity|].
  rewrite consume_yields, bind_split.
  destruct (for_each (InsertToMySQL.process fault) rs w1) as [[e|[]] w2]; reflexivity.
Qed.

End BundleFacts.

(** Counting calls. *)

Lemma count_app p l1 l2 : count p (l1 ++ l2) = (count p l1 + count p l2)%nat.
Proof. unfold count. rewrite filter_app, length_app. reflexivity. Qed.

Lemma count_process_calls p rs :
  (forall s, count p (process_calls s) = 0%nat) ->
  count p (flat_map process_calls rs) = 0%nat.
Proof.
  intros H. induction rs as [|s rs IH]; [reflexivity|].
  cbn [flat_map]. rewrite count_app, H, IH. reflexivity.
Qed.

Lemma count_commits rs :
  count is_commit (flat_map process_calls rs) = List.length rs.
Proof.
  induction rs as [|s rs IH]; [reflexivity|].
  cbn [flat_map]. rewrite count_app, IH. reflexivity.
Qed.

(** Replaying the log. *)

Lemma conn_open_after_app l1 : forall l2 o,
  conn_open_after (l1 ++ l2) o = conn_open_after l2 (conn_open_after l1 o).
Proof.
  induction l1 as [|[c ok] l1 IH]; intros l2 o; [reflexivity|].
  destruct c, ok; cbn; apply IH.
Qed.

Lemma stops_checked_app l1 : forall l2 o,
  stops_checked (l1 ++ l2) o
  = stops_checked l1 o && stops_checked l2 (conn_open_after l1 o).
Proof.
  induction l1 as [|[c ok] l1 IH]; intros l2 o; [reflexivity|].
  destruct c, ok; cbn; rewrite ?IH, ?andb_assoc; reflexivity.
Qed.

Lemma stops_checked_sound l : forall o,
  stops_checked l o = true ->
  forall before after ok,
    l = before ++ (TunnelStop, ok) :: after -> conn_open_after before o = false.
Proof.
  induction l as [|[c b] l IH]; intros o H before after ok E.
  - destruct before; discriminate.
  - destruct before as [|x before].
    + cbn in E. injection E as -> -> ->. cbn in H.
      apply andb_prop in H. destruct H as [H _]. destruct o; [discriminate|reflexivity].
    + cbn in E. injection E as <- E.
      destruct c, b; cbn in H |- *;
        try (apply andb_prop in H; destruct H as [_ H]);
        eapply IH; eassumption.
Qed.

Lemma process_calls_replay rs : forall o,
  stops_checked (flat_map process_calls rs) o = true
  /\ conn_open_after (flat_map process_calls rs) o = o.
Proof.
  induction rs as [|s rs IH]; intros o; [split; reflexivity|].
  cbn. apply IH.
Qed.

(** ** Runs without faults *)

Lemma consume_events_no_fault evs : forall w,
  leased w ->
  for_each (consume no_fault) evs w
  = (inr tt, {| tunnel := Open; conn := Open; cursor := Open;
                students := insert_all (yields evs) (students w); pending := [];
                calls := calls w ++ flat_map process_calls (yields evs);
                stdout := stdout w ++ prints evs |}).
Proof.
  induction evs as [|[rq|line|s] evs IH]; intros w Hw.
  - destruct Hw as (Ht & Hc & Hk & Hp). destruct w; cbn in *. subst.
    rewrite !app_nil_r. reflexivity.
  - cbn [for_each consume yields prints]. rewrite bind_split. cbn [ret M_monad].
    apply IH, Hw.
  - cbn [for_each consume yields prints]. rewrite bind_split.
    rewrite (IH _ (leased_print line w Hw)). cbn. rewrite <- app_assoc. reflexivity.
  - cbn [for_each consume yields prints]. rewrite bind_split.
    rewrite (process_ok no_fault s w Hw eq_refl eq_refl).
    rewrite (IH _ (leased_after_process s w Hw)). cbn. rewrite <- app_assoc. reflexivity.
Qed.

Lemma finish_bundle_no_fault w :
  leased w ->
  finish_bundle no_fault w
  = (inr tt, {| tunnel := Closed; conn := Closed; cursor := Closed;
                students := students w; pending := [];
                calls := calls w ++ finish_calls; stdout := stdout w |}).
Proof.
  intros (Ht & Hc & Hk & Hp). destruct w as [t c k T p l o]. cbn in *. subst.
  unfold finish_bundle, release, invoke, log, set_conn, set_pending, set_cursor, set_tunnel.
  cbn. rewrite <- !app_assoc. reflexivity.
Qed.


(** ** The table under [INSERT IGNORE] *)

Lemma has_key_In key rows : has_key key rows = true <-> In key (keys rows).
Proof.
  unfold has_key, keys, json_eqb. rewrite existsb_exists, in_map_iff. split.
  - intros (row & Hin & H). exists row. destruct (json_eq_dec key (nim row)); [auto|discriminate].
  - intros (row & <- & Hin). exists row. split; [exact Hin|].
    destruct (json_eq_dec (nim row) (nim row)); [reflexivity|contradiction].
Qed.




Lemma NoDup_upsert table s : NoDup (keys table) -> NoDup (keys (upsert table s)).
Proof.
  intros H. unfold upsert. destruct (has_key (nim s) table) eqn:E; [exact H|].
  unfold keys in *. rewrite map_app. cbn.
  apply NoDup_app; [exact H | repeat constructor; intros [] | ].
  intros key Hin [<- | []].
  assert (Hk : has_key (nim s) table = true) by (apply has_key_In; exact Hin).
  congruence.
Qed.



Lemma NoDup_insert_all rs : forall table,
  NoDup (keys table) -> NoDup (keys (insert_all rs table)).
Proof.
  induction rs as [|s rs IH]; intros table H; cbn; [exact H|].
  apply IH, NoDup_upsert, H.
Qed.




(** ** The fetch stage against its specification *)

Lemma prints_pages api query_limit n : forall offset,
  all_continue api query_limit n offset ->
  prints (pages api query_limit n offset) = [].
Proof.
  induction n as [|n IH]; intros offset H; [reflexivity|].
  apply all_continue_tail in H. destruct H as [H0 Hn].
  cbn [pages]. rewrite prints_app, (IH _ Hn), app_nil_r.
  pose proof (prints_iteration api query_limit offset) as Hp.
  rewrite H0 in Hp. exact Hp.
Qed.

Lemma loop_first_post api query_limit fuel offset :
  nth_error (posts (fst (loop api query_limit (S fuel) offset))) 0
  = Some (request query_limit offset).
Proof.
  destruct (snd (iteration api query_limit offset)) as [e|[|]] eqn:Hc.
  - rewrite (loop_raise _ _ _ _ _ Hc). cbn [fst]. rewrite posts_iteration. reflexivity.
  - rewrite (loop_continue _ _ _ _ Hc). cbn [fst].
    rewrite posts_app, posts_iteration. reflexivity.
  - rewrite (loop_break _ _ _ _ Hc). cbn [fst]. rewrite posts_iteration. reflexivity.
Qed.

Lemma yield_all_well_formed items :
  (forall item, In item items -> exists s, as_student item = inr s) ->
  snd (yield_all items) = inr tt
  /\ exists elements,
       Forall2 (fun item s => as_student item = inr s) items elements
       /\ fst (yield_all items) = map Yield elements.
Proof.
  induction items as [|item rest IH]; intros H.
  - split; [reflexivity|]. exists []. split; [constructor|reflexivity].
  - destruct (H item (or_introl eq_refl)) as (s & Hs).
    destruct (IH (fun it Hin => H it (or_intror Hin))) as (Hsnd & elements & Hall & Hfst).
    cbn [yield_all]. rewrite Hs.
    destruct (yield_all rest) as [evs r]. cbn in *. subst. split; [reflexivity|].
    exists (s :: elements). split; [constructor; assumption|reflexivity].
Qed.


(** What the loop does with the pages an endpoint serves. *)

Lemma as_student_item_of s : as_student (item_of s) = inr s.
Proof. destruct s as [n p]. reflexivity. Qed.

Lemma yield_all_items ps : yield_all (map item_of ps) = (map Yield ps, inr tt).
Proof.
  induction ps as [|s ps IH]; [reflexivity|].
  change (yield_all (map item_of (s :: ps)))
    with (match as_student (item_of s) with
          | inl e => ([], inl e)
          | inr s' => let (evs, r) := yield_all (map item_of ps) in (Yield s' :: evs, r)
          end).
  rewrite as_student_item_of, IH. reflexivity.
Qed.

Lemma iteration_page api query_limit offset ps :
  api (request query_limit offset) = Some (page_of ps) ->
  iteration api query_limit offset
  = match ps with
    | [] => ([Post (request query_limit offset)], inr Break)
    | _ :: _ => (Post (request query_limit offset) :: map Yield ps, inr Continue)
    end.
Proof.
  intros H. rewrite (iteration_200 _ _ _ _ H eq_refl).
  change (json_body (page_of ps))
    with (Some (JObj [("data", JObj [("data", JArr (map item_of ps))])])).
  cbv iota beta.
  assert (Hx : extract (JObj [("data", JObj [("data", JArr (map item_of ps))])])
               = inr (JArr (map item_of ps))) by reflexivity.
  rewrite Hx. destruct ps as [|s ps]; [reflexivity|].
  change (truthy (JArr (map item_of (s :: ps)))) with true. cbv iota beta.
  change (iter (JArr (map item_of (s :: ps)))) with (@inr exn _ (map item_of (s :: ps))).
  cbv iota beta. rewrite yield_all_items. reflexivity.
Qed.

Lemma serves_loop api query_limit pss : forall fuel offset,
  serves api query_limit offset pss ->
  loop api query_limit (S (List.length pss) + fuel) offset
  = (trace_of query_limit offset pss, Returned).
Proof.
  induction pss as [|ps pss IH]; intros fuel offset H.
  - cbn [serves] in H. cbn [List.length Nat.add trace_of].
    rewrite loop_break; rewrite (iteration_page _ _ _ _ H); reflexivity.
  - destruct H as (Hne & Hp & Hrest).
    assert (Hit : iteration api query_limit offset
                  = (Post (request query_limit offset) :: map Yield ps, inr Continue)).
    { rewrite (iteration_page _ _ _ _ Hp). destruct ps; [contradiction|reflexivity]. }
    cbn [trace_of].
    change (S (List.length (ps :: pss)) + fuel)%nat with (S (S (List.length pss) + fuel)).
    rewrite loop_continue by (rewrite Hit; reflexivity).
    rewrite Hit, (IH fuel _ Hrest). reflexivity.
Qed.


Lemma posts_map_Yield rs : posts (map Yield rs) = [].
Proof. induction rs as [|s rs IH]; [reflexivity|exact IH]. Qed.

Lemma posts_trace_of query_limit pss : forall offset,
  posts (trace_of query_limit offset pss)
  = map (fun i => request query_limit (offset + Z.of_nat i * query_limit))
        (seq 0 (S (List.length pss))).
Proof.
  induction pss as [|ps pss IH]; intros offset.
  - cbn. f_equal. f_equal. lia.
  - cbn [trace_of posts List.length]. rewrite posts_app, posts_map_Yield, IH.
    cbn [app].
    change (seq 0 (S (S (List.length pss)))) with (0%nat :: seq 1 (S (List.length pss))).
    cbn [map]. f_equal.
    + f_equal. lia.
    + rewrite <- seq_shift, map_map. apply map_ext. intros i. f_equal. lia.
Qed.


(** C1 (as stated) fails: the endpoint answers 500 to the second request, and
    the fetch generator prints the failure line and returns; it raises
    nothing, and it returns as it does at the end of the stream. *)
Lemma non200_fetch_returns_like_end_of_stream :
  Sample.two_then_500 (request 2 2) = Some {| status_code := 500; json_body := None |}
  /\ FetchGraphQLData.process Sample.two_then_500 2 5 0
     = ([Post (request 2 0); Yield (Sample.elem "A1" "Informatika");
         Yield (Sample.elem "A2" "Fisika"); Post (request 2 2);
         Print "Request failed with status code 500"], Returned)
  /\ snd (FetchGraphQLData.process Sample.two_then_empty 2 5 0) = Returned.
Proof. repeat split. Qed.

(** C1 (amended): when a fetch is answered with a status other than 200,
    after any number of pages, the pass sends that request, prints the
    failure line and stops the loop: no record of that page is yielded, so
    the sink receives nothing of it, no further request is made, and the
    generator returns without an exception: what it yielded is what the
    earlier pages held, and the failure line is all it printed. *)
Theorem non200_stops_the_loop_without_error
    api query_limit start n fuel response :
  all_continue api query_limit n start ->
  api (request query_limit (start + Z.of_nat n * query_limit)) = Some response ->
  status_code response <> 200 ->
  iteration api query_limit (start + Z.of_nat n * query_limit)
  = ([Post (request query_limit (start + Z.of_nat n * query_limit));
      Print (failed_line (status_code response))], inr Break)
  /\ FetchGraphQLData.process api query_limit (n + S fuel) start
     = (pages api query_limit n start
          ++ [Post (request query_limit (start + Z.of_nat n * query_limit));
              Print (failed_line (status_code response))],
        Returned)
  /\ yields (fst (FetchGraphQLData.process api query_limit (n + S fuel) start))
     = yields (pages api query_limit n start)
  /\ List.length
       (posts (fst (FetchGraphQLData.process api query_limit (n + S fuel) start)))
     = S n
  /\ prints (fst (FetchGraphQLData.process api query_limit (n + S fuel) start))
     = [failed_line (status_code response)].
Proof.
  intros Hn Hr Hs.
  assert (Hp : FetchGraphQLData.process api query_limit (n + S fuel) start
               = (pages api query_limit n start
                    ++ [Post (request query_limit (start + Z.of_nat n * query_limit));
                        Print (failed_line (status_code response))],
                  Returned)).
  { unfold FetchGraphQLData.process. rewrite (loop_pages _ _ _ _ _ Hn).
    rewrite loop_break; rewrite (iteration_non200 _ _ _ _ Hr Hs); reflexivity. }
  split; [apply (iteration_non200 _ _ _ _ Hr Hs)|].
  split; [exact Hp|]. rewrite Hp. cbn [fst].
  rewrite yields_app, posts_app, prints_app, length_app, posts_pages,
    (prints_pages _ _ _ _ Hn).
  cbn. rewrite app_nil_r. repeat split. lia.
Qed.

Lemma non200_stops_the_loop_without_error_witness :
  iteration Sample.two_then_500 2 2
  = ([Post (request 2 2); Print "Request failed with status code 500"], inr Break)
  /\ FetchGraphQLData.process Sample.two_then_500 2 (1 + 4) 0
     = ([Post (request 2 0); Yield (Sample.elem "A1" "Informatika");
         Yield (Sample.elem "A2" "Fisika"); Post (request 2 2);
         Print "Request failed with status code 500"], Returned)
  /\ yields (fst (FetchGraphQLData.process Sample.two_then_500 2 (1 + 4) 0))
     = Sample.two_records
  /\ List.length
       (posts (fst (FetchGraphQLData.process Sample.two_then_500 2 (1 + 4) 0)))
     = 2%nat
  /\ prints (fst (FetchGraphQLData.process Sample.two_then_500 2 (1 + 4) 0))
     = ["Request failed with status code 500"].
Proof.
  apply (non200_stops_the_loop_without_error Sample.two_then_500 2 0 1 3
           {| status_code := 500; json_body := None |}).
  - intros i Hi. assert (i = 0%nat) by lia. subst i. reflexivity.
  - reflexivity.
  - cbn. lia.
Defined.

(** C5 (as stated) fails: with a page limit of -3 the requests of the fetch
    stage ask for the offsets 0, -3 and -6: the cursor is rewound. *)
Lemma negative_limit_rewinds_the_cursor :
  posts (fst (FetchGraphQLData.process Scenario.served_backwards (-3) 5 0))
  = [request (-3) 0; request (-3) (-3); request (-3) (-6)]
  /\ snd (FetchGraphQLData.process Scenario.served_backwards (-3) 5 0) = Returned.
Proof. split; reflexivity. Qed.

(** C5 (amended): the first pass requests the start offset, and after each
    page that was yielded in full the cursor is advanced by exactly the page
    limit: the k-th request of the fetch stage asks for offset
    start + k * limit with the configured limit; a further request is made
    only after such a page and is made whenever fuel remains; and for an
    endpoint that serves n pages the requests are exactly those for start,
    start + limit, ..., start + n * limit.  The limit is not validated: the
    offsets increase strictly when it is positive, stay at the start when it
    is 0, and decrease when it is negative. *)
Theorem cursor_advances_by_limit api query_limit fuel start :
  let requests := posts (fst (FetchGraphQLData.process api query_limit fuel start)) in
  (forall k rq, nth_error requests k = Some rq ->
     rq_offset rq = start + Z.of_nat k * query_limit /\ rq_limit rq = query_limit)
  /\ ((0 < fuel)%nat -> nth_error requests 0 = Some (request query_limit start))
  /\ (forall k rq, nth_error requests (S k) = Some rq ->
        snd (iteration api query_limit (start + Z.of_nat k * query_limit)) = inr Continue)
  /\ (forall k, (S k < fuel)%nat -> all_continue api query_limit (S k) start ->
        nth_error requests (S k)
        = Some (request query_limit (start + Z.of_nat k * query_limit + query_limit)))
  /\ (forall pss, serves api query_limit start pss -> (List.length pss < fuel)%nat ->
        requests
        = map (fun i => request query_limit (start + Z.of_nat i * query_limit))
              (seq 0 (S (List.length pss))))
  /\ (forall i j ri rj, (i < j)%nat ->
        nth_error requests i = Some ri -> nth_error requests j = Some rj ->
        (0 < query_limit -> rq_offset ri < rq_offset rj)
        /\ (query_limit = 0 -> rq_offset ri = rq_offset rj)
        /\ (query_limit < 0 -> rq_offset rj < rq_offset ri)).
Proof.
  intros requests. subst requests. unfold FetchGraphQLData.process.
  split; [|split; [|split; [|split; [|split]]]].
  - intros k rq H. apply loop_posts_nth in H. subst rq. split; reflexivity.
  - intros Hf. destruct fuel as [|fuel]; [lia|]. apply loop_first_post.
  - intros k rq H. eapply loop_posts_next. exact H.
  - intros k Hk Hc.
    replace fuel with (S k + S (fuel - S k - 1))%nat by lia.
    rewrite (loop_pages _ _ _ _ _ Hc). cbn [fst].
    rewrite posts_app, nth_error_app2; rewrite posts_pages; [|lia].
    rewrite Nat.sub_diag, loop_first_post. do 2 f_equal. lia.
  - intros pss Hs Hlen.
    replace fuel with (S (List.length pss) + (fuel - S (List.length pss)))%nat by lia.
    rewrite (serves_loop _ _ _ _ _ Hs). cbn [fst]. apply posts_trace_of.
  - intros i j ri rj Hij Hi Hj.
    apply loop_posts_nth in Hi, Hj. subst ri rj. cbn. repeat split; intros; nia.
Qed.

Lemma cursor_advances_by_limit_witness :
  posts (fst (FetchGraphQLData.process Sample.four_then_empty 2 5 0))
  = [request 2 0; request 2 2; request 2 4].
Proof.
  apply (proj1 (proj2 (proj2 (proj2 (proj2
           (cursor_advances_by_limit Sample.four_then_empty 2 5 0)))))
           Scenario.two_pages).
  - repeat split; discriminate.
  - cbn. lia.
Defined.


(** A pass breaks only on a status other than 200 or on a 200 response
    whose extracted value is falsy. *)
Lemma iteration_break_inv api query_limit offset :
  snd (iteration api query_limit offset) = inr Break ->
  exists response,
    api (request query_limit offset) = Some response
    /\ (status_code response <> 200
        \/ (status_code response = 200
            /\ exists data v,
                 json_body response = Some data /\ extract data = inr v
                 /\ truthy v = false)).
Proof.
  intros H. destruct (api (request query_limit offset)) as [response|] eqn:Hr.
  2:{ rewrite (iteration_no_response _ _ _ Hr) in H. discriminate. }
  exists response. split; [reflexivity|].
  destruct (Z.eq_dec (status_code response) 200) as [Hs|Hs]; [right|left; exact Hs].
  split; [exact Hs|].
  rewrite (iteration_200 _ _ _ _ Hr Hs) in H.
  destruct (json_body response) as [data|]; [|discriminate].
  destruct (extract data) as [e|v] eqn:He; [discriminate|].
  destruct (truthy v) eqn:Ht.
  - destruct (iter v) as [e|items]; [discriminate|].
    cbn [snd] in H. destruct (snd (yield_all items)); discriminate.
  - exists data, v. repeat split; assumption.
Qed.

(** The loop returns only after a pass that broke. *)
Lemma loop_returned_inv api query_limit fuel : forall offset,
  snd (loop api query_limit fuel offset) = Returned ->
  exists k,
    List.length (posts (fst (loop api query_limit fuel offset))) = S k
    /\ snd (iteration api query_limit (offset + Z.of_nat k * query_limit)) = inr Break.
Proof.
  induction fuel as [|fuel IH]; intros offset H; [discriminate|].
  destruct (snd (iteration api query_limit offset)) as [e|[|]] eqn:Hc.
  - rewrite (loop_raise _ _ _ _ _ Hc) in H. discriminate.
  - rewrite (loop_continue _ _ _ _ Hc) in H |- *. cbn [fst snd] in *.
    destruct (IH _ H) as (k & Hlen & Hb). exists (S k).
    rewrite posts_app, posts_iteration. cbn [app List.length]. rewrite Hlen.
    split; [reflexivity|].
    replace (offset + Z.of_nat (S k) * query_limit)
      with (offset + query_limit + Z.of_nat k * query_limit) by lia.
    exact Hb.
  - exists 0%nat. rewrite (loop_break _ _ _ _ Hc). cbn [fst].
    rewrite posts_iteration. split; [reflexivity|].
    replace (offset + Z.of_nat 0 * query_limit) with offset by lia. exact Hc.
Qed.

(** C6 (as stated) fails: the endpoint serves one page of two records and
    answers 500 to the next request; the loop ends there and the generator
    returns, though no response carried an empty Record list. *)
Lemma non200_also_ends_the_loop :
  Sample.two_then_500 (request 2 0)
  = Sample.page [Sample.item "A1" "Informatika"; Sample.item "A2" "Fisika"]
  /\ Sample.two_then_500 (request 2 2) = Some {| status_code := 500; json_body := None |}
  /\ posts (fst (FetchGraphQLData.process Sample.two_then_500 2 5 0))
     = [request 2 0; request 2 2]
  /\ snd (FetchGraphQLData.process Sample.two_then_500 2 5 0) = Returned.
Proof. repeat split. Qed.

(** C6 (amended): a 200 response whose Record list is empty ends the loop:
    the generator returns without an exception, that request is its last,
    what it yielded is what the earlier pages held, and it prints nothing.
    Among 200 responses that carry a Record list the loop
    breaks exactly when the list is empty; after any number of pages, a
    non-empty list of well-formed records is followed by the request for the
    next page: no page cap, no count.  The loop also ends, and the generator
    returns in the same way, on a response whose status is not 200; whenever
    the generator returns, its last response had a status other than 200 or
    was a 200 response with an empty (or absent, or otherwise falsy) Record
    list. *)
Theorem empty_page_ends_the_stream
    api query_limit start n fuel response data xs :
  all_continue api query_limit n start ->
  api (request query_limit (start + Z.of_nat n * query_limit)) = Some response ->
  status_code response = 200 ->
  json_body response = Some data ->
  extract data = inr (JArr xs) ->
  let offset := start + Z.of_nat n * query_limit in
  (snd (iteration api query_limit offset) = inr Break <-> xs = [])
  /\ (xs = [] ->
        FetchGraphQLData.process api query_limit (n + S fuel) start
        = (pages api query_limit n start ++ [Post (request query_limit offset)], Returned)
        /\ List.length
             (posts (fst (FetchGraphQLData.process api query_limit (n + S fuel) start)))
           = S n
        /\ yields (fst (FetchGraphQLData.process api query_limit (n + S fuel) start))
           = yields (pages api query_limit n start)
        /\ prints (fst (FetchGraphQLData.process api query_limit (n + S fuel) start)) = [])
  /\ (xs <> [] ->
        (forall item, In item xs -> exists s, as_student item = inr s) ->
        all_continue api query_limit (S n) start
        /\ nth_error
             (posts (fst (FetchGraphQLData.process api query_limit (n + S (S fuel)) start)))
             (S n)
           = Some (request query_limit (offset + query_limit)))
  /\ (forall fuel' start',
        snd (FetchGraphQLData.process api query_limit fuel' start') = Returned ->
        exists k last,
          List.length (posts (fst (FetchGraphQLData.process api query_limit fuel' start')))
          = S k
          /\ api (request query_limit (start' + Z.of_nat k * query_limit)) = Some last
          /\ (status_code last <> 200
              \/ (status_code last = 200
                  /\ exists body v,
                       json_body last = Some body /\ extract body = inr v
                       /\ truthy v = false))).
Proof.
  intros Hn Hr Hs Hb He offset. subst offset.
  set (offset := start + Z.of_nat n * query_limit) in *.
  assert (Hit : iteration api query_limit offset
                = if truthy (JArr xs)
                  then (Post (request query_limit offset) :: fst (yield_all xs),
                        match snd (yield_all xs) with
                        | inl e => inl e
                        | inr _ => inr Continue
                        end)
                  else ([Post (request query_limit offset)], inr Break)).
  { rewrite (iteration_200 _ _ _ _ Hr Hs), Hb, He.
    destruct (truthy (JArr xs)); reflexivity. }
  split; [|split; [|split]].
  - rewrite Hit. destruct xs as [|x xs]; cbn [truthy snd].
    + split; reflexivity.
    + split; [|discriminate].
      intros H. destruct (snd (yield_all (x :: xs))); discriminate.
  - intros ->. simpl_rhs Hit.
    assert (Hp : FetchGraphQLData.process api query_limit (n + S fuel) start
                 = (pages api query_limit n start ++ [Post (request query_limit offset)],
                    Returned)).
    { unfold FetchGraphQLData.process. rewrite (loop_pages _ _ _ _ _ Hn).
      fold offset. rewrite loop_break; rewrite Hit; reflexivity. }
    split; [exact Hp|]. split.
    + rewrite Hp. cbn [fst]. rewrite posts_app, length_app, posts_pages. cbn. lia.
    + rewrite Hp. cbn [fst].
      rewrite yields_app, prints_app, (prints_pages _ _ _ _ Hn). cbn.
      rewrite app_nil_r. split; reflexivity.
  - intros Hne Hwf.
    destruct (yield_all_well_formed xs Hwf) as (Hsnd & _).
    assert (Hc : snd (iteration api query_limit offset) = inr Continue).
    { rewrite Hit. destruct xs as [|x xs]; [contradiction|]. cbn [truthy snd].
      rewrite Hsnd. reflexivity. }
    assert (Hall : all_continue api query_limit (S n) start).
    { intros i Hi. destruct (Nat.eq_dec i n) as [->|Hin]; [exact Hc|].
      apply Hn. lia. }
    split; [exact Hall|].
    unfold FetchGraphQLData.process.
    replace (n + S (S fuel))%nat with (S n + S fuel)%nat by lia.
    rewrite (loop_pages _ _ _ _ _ Hall). cbn [fst].
    rewrite posts_app, nth_error_app2; rewrite posts_pages; [|lia].
    rewrite Nat.sub_diag, loop_first_post. do 2 f_equal. subst offset. lia.
  - intros fuel' start' Hret. unfold FetchGraphQLData.process in *.
    destruct (loop_returned_inv _ _ _ _ Hret) as (k & Hlen & Hbreak).
    destruct (iteration_break_inv _ _ _ Hbreak) as (last & Hlast & Hwhy).
    exists k, last. auto.
Qed.

Lemma empty_page_ends_the_stream_witness :
  let offset := 0 + Z.of_nat 1 * 2 in
  (snd (iteration Sample.two_then_empty 2 offset) = inr Break <-> @nil json = [])
  /\ (@nil json = [] ->
        FetchGraphQLData.process Sample.two_then_empty 2 (1 + 4) 0
        = ([Post (request 2 0); Yield (Sample.elem "A1" "Informatika");
            Yield (Sample.elem "A2" "Fisika"); Post (request 2 2)], Returned)
        /\ List.length
             (posts (fst (FetchGraphQLData.process Sample.two_then_empty 2 (1 + 4) 0)))
           = 2%nat
        /\ yields (fst (FetchGraphQLData.process Sample.two_then_empty 2 (1 + 4) 0))
           = Sample.two_records
        /\ prints (fst (FetchGraphQLData.process Sample.two_then_empty 2 (1 + 4) 0)) = [])
  /\ (@nil json <> [] ->
        (forall item, In item (@nil json) -> exists s, as_student item = inr s) ->
        all_continue Sample.two_then_empty 2 2 0
        /\ nth_error
             (posts (fst (FetchGraphQLData.process Sample.two_then_empty 2 (1 + 5) 0)))
             2
           = Some (request 2 (offset + 2)))
  /\ (forall fuel' start',
        snd (FetchGraphQLData.process Sample.two_then_empty 2 fuel' start') = Returned ->
        exists k last,
          List.length
            (posts (fst (FetchGraphQLData.process Sample.two_then_empty 2 fuel' start')))
          = S k
          /\ Sample.two_then_empty (request 2 (start' + Z.of_nat k * 2)) = Some last
          /\ (status_code last <> 200
              \/ (status_code last = 200
                  /\ exists body v,
                       json_body last = Some body /\ extract body = inr v
                       /\ truthy v = false))).
Proof.
  apply (empty_page_ends_the_stream Sample.two_then_empty 2 0 1 3
           {| status_code := 200;
              json_body := Some (JObj [("data", JObj [("data", JArr [])])]) |}
           (JObj [("data", JObj [("data", JArr [])])]) []).
  - intros i Hi. assert (i = 0%nat) by lia. subst i. reflexivity.
  - reflexivity.
  - reflexivity.
  - reflexivity.
  - reflexivity.
Defined.






(** ** How a bundle and a run end *)

Lemma all_ok_app l1 l2 : all_ok (l1 ++ l2) = all_ok l1 && all_ok l2.
Proof. apply forallb_app. Qed.

Lemma all_ok_process_calls ys : all_ok (flat_map process_calls ys) = true.
Proof. induction ys as [|s ys IH]; [reflexivity|exact IH]. Qed.

Lemma finish_after_body fault T ys w :
  leased w ->
  students w = insert_all ys T ->
  calls w = start_calls ++ flat_map process_calls ys ->
  bundle_end T ys (fst (finish_bundle fault w)) (snd (finish_bundle fault w))
  /\ stdout (snd (finish_bundle fault w)) = stdout w.
Proof.
  intros Hl Hs Hc.
  destruct (finish_bundle_leased fault w Hl) as [Hf | (l & k & c & e & Hf & He)].
  - rewrite Hf. cbn [fst snd]. split; [|reflexivity].
    apply finished; cbn; try reflexivity; try assumption.
    rewrite Hc, <- app_assoc. reflexivity.
  - rewrite He. cbn [fst snd]. split; [|reflexivity].
    apply (finish_failed T ys l k c e); cbn; try reflexivity; try assumption.
    rewrite Hc, <- app_assoc. reflexivity.
Qed.

Lemma run_bundle_ends fault rs T :
  bundle_end T rs (fst (run_bundle fault rs (fresh T)))
                  (snd (run_bundle fault rs (fresh T))).
Proof.
  rewrite run_bundle_split.
  destruct (start_and_consume fault T (map Yield rs)) as (res & w & Hr & Hcases).
  rewrite Hr. rewrite yields_map_Yield in Hcases.
  destruct Hcases as [(l & t & c & e & Hf & -> & ->)
                     | [(k & s & extra & m & -> & Hn & Hp & Ht & Hc & Hk & Hs & Hl & _)
                       | (-> & Hl & Hs & Hc & _)]].
  - cbn [fst snd]. apply (start_failed T rs l t c e); auto.
  - cbn [fst snd]. apply (process_failed T rs k s extra); auto.
  - apply finish_after_body; assumption.
Qed.

(** The two steps over an element: the exit status is 0 exactly when the
    bundle finished, and what was printed is a prefix of what the generator
    printed. *)
Lemma pipeline_ends api query_limit fault fuel element T code w :
  pipeline api query_limit fault fuel element (fresh T) = Some (code, w) ->
  let evs := fst (process_element api query_limit fuel element) in
  exists res m,
    bundle_end T (yields evs) res w
    /\ code = exit_status res
    /\ stdout w = firstn m (prints evs)
    /\ (res = inr tt ->
        snd (process_element api query_limit fuel element) = Returned
        /\ stdout w = prints evs)
    /\ (snd (process_element api query_limit fuel element) = Returned ->
        all_ok (calls w) = true -> res = inr tt).
Proof.
  unfold pipeline. destruct (process_element api query_limit fuel element) as [evs out].
  cbn [fst snd].
  destruct (start_and_consume fault T evs) as (res & w1 & Hr & Hcases). rewrite Hr.
  destruct Hcases as [(l & t & c & e & Hf & -> & ->)
                     | [(k & s & extra & m & -> & Hn & Hp & Ht & Hc & Hk & Hs & Hl & Ho)
                       | (-> & Hl & Hs & Hc & Ho)]].
  - intros H. injection H as <- <-. exists (inl e), 0%nat.
    repeat split; try discriminate.
    + apply (start_failed _ _ l t c e); auto.
    + intros _ Hok. cbn in Hok. destruct Hf; discriminate.
  - intros H. injection H as <- <-. exists (inl MySQLError), m.
    repeat split; try discriminate; try assumption.
    + apply (process_failed _ _ k s extra); auto.
    + intros _ Hok. rewrite Hl, !all_ok_app in Hok.
      destruct Hp; cbn in Hok; rewrite ?andb_false_r in Hok; discriminate.
  - destruct out as [|e|].
    + destruct (finish_bundle_leased fault w1 Hl) as [Hf | (l & k & c & e & Hf & He)].
      * rewrite Hf. intros H. injection H as <- <-.
        exists (inr tt), (List.length (prints evs)).
        rewrite firstn_all. cbn [stdout]. repeat split; try congruence.
        apply finished; cbn; try reflexivity; try assumption.
        rewrite Hc, <- app_assoc. reflexivity.
      * rewrite He. intros H. injection H as <- <-.
        exists (inl e), (List.length (prints evs)).
        rewrite firstn_all. cbn [stdout calls]. repeat split; try discriminate; try congruence.
        -- apply (finish_failed _ _ l k c e); cbn; try reflexivity; try assumption.
           rewrite Hc, <- app_assoc. reflexivity.
        -- intros _ Hok. rewrite all_ok_app in Hok.
           destruct Hf; cbn in Hok; rewrite ?andb_false_r in Hok; discriminate.
    + intros H. injection H as <- <-. exists (inl e), (List.length (prints evs)).
      rewrite firstn_all. repeat split; try discriminate; try assumption.
      destruct Hl as (Ht & Hk & Hcur & _). apply generator_raised; assumption.
    + discriminate.
Qed.

(** Counting the calls of each ending. *)
Lemma count_body p ys tail :
  (forall s, count p (process_calls s) = 0%nat) ->
  count p (start_calls ++ flat_map process_calls ys ++ tail)
  = (count p start_calls + count p tail)%nat.
Proof.
  intros H. rewrite !count_app, (count_process_calls p ys H). lia.
Qed.

Lemma nth_error_firstn_length {A : Type} (l : list A) k x :
  nth_error l k = Some x -> List.length (firstn k l) = k.
Proof.
  intros H. rewrite length_firstn. apply Nat.min_l.
  apply Nat.lt_le_incl, nth_error_Some. congruence.
Qed.

(** ** The sink stage against its specification *)

Lemma count_commits_body ys tail :
  count is_commit (start_calls ++ flat_map process_calls ys ++ tail)
  = (List.length ys + count is_commit tail)%nat.
Proof. rewrite !count_app, count_commits. reflexivity. Qed.

(** C2 (as stated) fails: a page of two records whose second insert raises
    leaves the first record committed, so the table holds some but not all
    rows of the page. *)
Lemma second_insert_failure_keeps_first_row :
  fst (run_bundle Sample.second_insert_fails Sample.two_records (fresh [])) = inl MySQLError
  /\ students (snd (run_bundle Sample.second_insert_fails Sample.two_records (fresh [])))
     = [Sample.elem "A1" "Informatika"].
Proof. split; reflexivity. Qed.

(** C2 (amended): every record is inserted and committed in a transaction
    of its own.  After a bundle, whatever calls failed, the table is the
    initial table with the first k elements inserted, k being the number of
    commits that succeeded; k is the number of all elements when the bundle
    succeeded.  When an insert or a commit raised, the exception propagates,
    the records before that one stay committed and the later ones are not
    attempted. *)
Theorem each_record_is_committed_on_its_own fault rs T :
  let res := fst (run_bundle fault rs (fresh T)) in
  let w := snd (run_bundle fault rs (fresh T)) in
  let k := count is_commit (calls w) in
  (k <= List.length rs)%nat
  /\ students w = insert_all (firstn k rs) T
  /\ (res = inr tt -> k = List.length rs)
  /\ (count is_write_failure (calls w) <> 0%nat ->
        res = inl MySQLError /\ (k < List.length rs)%nat).
Proof.
  intros res w k. subst res w k.
  pose proof (run_bundle_ends fault rs T) as H.
  destruct (run_bundle fault rs (fresh T)) as [res w]. cbn [fst snd] in *.
  bundle_cases H.
  - destruct Hfail; cbn; repeat split; try lia; try discriminate; congruence.
  - rewrite count_commits_body.
    pose proof (nth_error_firstn_length _ _ _ Hnth) as Hlen.
    assert (Hk : (k < List.length rs)%nat) by (apply nth_error_Some; congruence).
    assert (Hex : count is_commit extra = 0%nat) by (destruct Hfail; reflexivity).
    rewrite Hlen, Hex, Nat.add_0_r. repeat split; try lia; discriminate.
  - replace (start_calls ++ flat_map process_calls rs)
      with (start_calls ++ flat_map process_calls rs ++ []) by (rewrite app_nil_r; reflexivity).
    rewrite count_commits_body, (count_body is_write_failure) by reflexivity.
    cbn. rewrite Nat.add_0_r, firstn_all. repeat split; try lia; congruence.
  - rewrite count_commits_body, (count_body is_write_failure) by reflexivity.
    assert (Hex : count is_commit l = 0%nat /\ count is_write_failure l = 0%nat)
      by (destruct Hfail; split; reflexivity).
    destruct Hex as [-> ->]. cbn. rewrite Nat.add_0_r, firstn_all.
    repeat split; try lia; try discriminate; congruence.
  - rewrite count_commits_body, (count_body is_write_failure) by reflexivity.
    cbn. rewrite Nat.add_0_r, firstn_all. repeat split; try lia; congruence.
Qed.

(** C4 (as stated) fails: the lease is acquired (the three calls of
    [start_bundle] succeed), the insert of the second record raises, and the
    bundle ends with no close and no stop: connection and tunnel stay open. *)
Lemma insert_failure_leaves_the_lease_open :
  firstn 3 (calls (snd (run_bundle Sample.second_insert_fails Sample.two_records (fresh []))))
  = start_calls
  /\ fst (run_bundle Sample.second_insert_fails Sample.two_records (fresh [])) = inl MySQLError
  /\ count is_conn_close
       (calls (snd (run_bundle Sample.second_insert_fails Sample.two_records (fresh [])))) = 0%nat
  /\ count is_tunnel_stop
       (calls (snd (run_bundle Sample.second_insert_fails Sample.two_records (fresh [])))) = 0%nat
  /\ conn (snd (run_bundle Sample.second_insert_fails Sample.two_records (fresh []))) = Open
  /\ tunnel (snd (run_bundle Sample.second_insert_fails Sample.two_records (fresh []))) = Open.
Proof. repeat split. Qed.

(** C4 (amended): when a bundle succeeds, [finish_bundle] has closed the
    cursor, closed the database handle and stopped the tunnel, each exactly
    once.  When an insert or a commit raises, the exception propagates and
    nothing is released: no close and no stop is called, and the connection
    and the tunnel are left open.  No bundle closes or stops twice. *)
Theorem lease_released_once_when_the_bundle_succeeds fault rs T :
  let res := fst (run_bundle fault rs (fresh T)) in
  let w := snd (run_bundle fault rs (fresh T)) in
  (res = inr tt ->
     count is_cursor_close (calls w) = 1%nat
     /\ count is_conn_close (calls w) = 1%nat
     /\ count is_tunnel_stop (calls w) = 1%nat
     /\ cursor w = Closed /\ conn w = Closed /\ tunnel w = Closed)
  /\ (count is_write_failure (calls w) <> 0%nat ->
        res = inl MySQLError
        /\ count is_conn_close (calls w) = 0%nat
        /\ count is_tunnel_stop (calls w) = 0%nat
        /\ conn w = Open /\ tunnel w = Open)
  /\ (count is_conn_close (calls w) <= 1)%nat
  /\ (count is_tunnel_stop (calls w) <= 1)%nat.
Proof.
  intros res w. subst res w.
  pose proof (run_bundle_ends fault rs T) as H.
  destruct (run_bundle fault rs (fresh T)) as [res w]. cbn [fst snd] in *.
  bundle_cases H.
  - destruct Hfail; cbn; repeat split; try lia; try discriminate; congruence.
  - rewrite !count_body by reflexivity.
    destruct Hfail; cbn; repeat split; try lia; discriminate.
  - replace (start_calls ++ flat_map process_calls rs)
      with (start_calls ++ flat_map process_calls rs ++ []) by (rewrite app_nil_r; reflexivity).
    rewrite !count_body by reflexivity.
    cbn. repeat split; try lia; try discriminate; congruence.
  - rewrite !count_body by reflexivity.
    destruct Hfail; cbn; repeat split; try lia; try discriminate; congruence.
  - rewrite !count_body by reflexivity.
    cbn. repeat split; try lia; congruence.
Qed.

(** The calls [finish_bundle] adds to the log, in any world. *)
Lemma finish_bundle_log fault w :
  exists new,
    calls (snd (finish_bundle fault w)) = calls w ++ new
    /\ In new [ [];
                [(CursorClose, false)];
                [(CursorClose, true)];
                [(CursorClose, true); (ConnClose, false)];
                [(CursorClose, true); (ConnClose, true)];
                [(CursorClose, true); (ConnClose, true); (TunnelStop, false)];
                [(CursorClose, true); (ConnClose, true); (TunnelStop, true)] ].
Proof.
  destruct w as [t c k T p l o].
  unfold finish_bundle, release, invoke. cbn [bind M_monad].
  destruct k; cbn [cursor];
    try (exists []; cbn; rewrite app_nil_r; auto; fail);
    (destruct (fault _);
     [ eexists; split; [cbn; reflexivity | cbn; tauto] | ]);
    cbn [set_cursor log conn calls];
    (destruct c;
     [ eexists; split; [cbn; reflexivity | cbn; tauto] | | ]);
    (destruct (fault _);
     [ eexists; split; [cbn; rewrite <- app_assoc; reflexivity | cbn; tauto] | ]);
    cbn [set_conn set_pending log tunnel calls conn cursor students pending stdout];
    (destruct t;
     [ eexists; split; [cbn; rewrite <- app_assoc; reflexivity | cbn; tauto] | | ]);
    (destruct (fault _);
     eexists; (split; [cbn; rewrite <- !app_assoc; reflexivity | cbn; tauto])).
Qed.

Lemma stop_after_close_of_end T ys res w :
  bundle_end T ys res w -> stop_after_close (calls w).
Proof.
  intros H. unfold stop_after_close. apply stops_checked_sound.
  bundle_cases H; [destruct Hfail; reflexivity | | | | ];
    rewrite ?stops_checked_app, ?conn_open_after_app;
    change (conn_open_after start_calls false) with true;
    change (stops_checked start_calls false) with true;
    match goal with
    | |- context [flat_map process_calls ?l] =>
        destruct (process_calls_replay l true) as [Hchk Hrep];
        rewrite ?Hchk, ?Hrep
    end;
    try destruct Hfail; reflexivity.
Qed.

(** C7: [finish_bundle] calls [tunnel.stop()] last and only after
    [conn.close()] has returned, in any world and under any faults; in the
    log of every bundle and of every run, each [tunnel.stop()] comes at a
    point where the database connection is closed; the same holds for the
    two steps over any element, whatever its offset is. *)
Theorem connection_closed_before_tunnel_stops fault :
  (forall w before after ok,
     calls (snd (finish_bundle fault w)) = calls w ++ before ++ (TunnelStop, ok) :: after ->
     In (ConnClose, true) before /\ after = [])
  /\ (forall rs T, stop_after_close (calls (snd (run_bundle fault rs (fresh T)))))
  /\ (forall api query_limit fuel start T code w,
        run api query_limit fault fuel start (fresh T) = Some (code, w) ->
        stop_after_close (calls w))
  /\ (forall api query_limit fuel element T code w,
        pipeline api query_limit fault fuel element (fresh T) = Some (code, w) ->
        stop_after_close (calls w)).
Proof.
  split; [|split; [|split]].
  - intros w before after ok H.
    destruct (finish_bundle_log fault w) as (new & Hnew & Hin).
    rewrite Hnew in H. apply app_inv_head in H. subst new.
    cbn in Hin.
    repeat (destruct Hin as [Hin | Hin];
            [ repeat (destruct before as [|? before]; cbn in Hin; try discriminate);
              injection Hin as <-; intros; subst; cbn; auto
            | ]).
    contradiction.
  - intros rs T. eapply stop_after_close_of_end. apply run_bundle_ends.
  - intros api query_limit fuel start T code w H. unfold run in H.
    destruct (pipeline_ends _ _ _ _ _ _ _ _ H) as (res & m & Hend & _).
    eapply stop_after_close_of_end. exact Hend.
  - intros api query_limit fuel element T code w H.
    destruct (pipeline_ends _ _ _ _ _ _ _ _ H) as (res & m & Hend & _).
    eapply stop_after_close_of_end. exact Hend.
Qed.

(** ** The run against its specification *)

Lemma firstn_short_prints (l : list string) m status :
  l = [] \/ l = [failed_line status] ->
  firstn m l = [] \/ firstn m l = [failed_line status].
Proof.
  intros [-> | ->]; destruct m as [|m]; cbn; auto.
  destruct m; cbn; auto.
Qed.

Lemma prints_process_element api query_limit fuel element :
  prints (fst (process_element api query_limit fuel element)) = []
  \/ exists status, status <> 200
       /\ prints (fst (process_element api query_limit fuel element))
          = [failed_line status].
Proof.
  destruct element as [n|v]; cbn [process_element].
  - apply loop_prints.
  - left. destruct fuel; reflexivity.
Qed.



(** C8 (as stated) fails: against an endpoint that serves two records and
    then an empty page, the run exits with status 1 and prints nothing, so
    no cursor; and the two steps over an element that holds the integer 0
    reach the end of the stream, exit with status 0 and print nothing
    either. *)
Lemma failed_run_prints_no_cursor :
  option_map fst (run Sample.two_then_empty 2 no_fault 5 0 (fresh [])) = Some 1
  /\ option_map (fun r => stdout (snd r))
       (run Sample.two_then_empty 2 no_fault 5 0 (fresh [])) = Some []
  /\ option_map fst
       (pipeline Sample.two_then_empty 2 no_fault 5 (IntValue 0) (fresh [])) = Some 0
  /\ option_map (fun r => stdout (snd r))
       (pipeline Sample.two_then_empty 2 no_fault 5 (IntValue 0) (fresh [])) = Some [].
Proof. repeat split. Qed.

(** C8 (amended): the two steps over an element, whatever its offset is,
    end with exit status 0 or 1: with 0 exactly when the fetch generator
    returned and every call of the sink succeeded, with 1 when an exception
    left [run].  No cursor is printed: the whole output is empty or the one
    line "Request failed with status code <status>" of a status other than
    200. *)
Theorem exit_status_and_output api query_limit fault fuel element T code w :
  pipeline api query_limit fault fuel element (fresh T) = Some (code, w) ->
  (code = 0 \/ code = 1)
  /\ (code = 0 <->
      snd (process_element api query_limit fuel element) = Returned
      /\ all_ok (calls w) = true)
  /\ (stdout w = []
      \/ exists status, status <> 200 /\ stdout w = [failed_line status]).
Proof.
  intros H.
  destruct (pipeline_ends _ _ _ _ _ _ _ _ H)
    as (res & m & Hend & -> & Hout & Hok & Hret).
  split; [|split].
  - destruct res; cbn; auto.
  - split.
    + intros Hc.
      assert (res = inr tt) as -> by (destruct res as [e|[]]; [discriminate|reflexivity]).
      split; [apply Hok; reflexivity|].
      inversion Hend as [ | | | | w' Htun Hconn Hcur Hstud Hcalls]; subst.
      rewrite Hcalls, !all_ok_app, all_ok_process_calls. reflexivity.
    + intros [Hr Ha]. rewrite (Hret Hr Ha). reflexivity.
  - rewrite Hout.
    destruct (prints_process_element api query_limit fuel element)
      as [Hp | (status & Hs & Hp)]; rewrite Hp.
    + left. destruct m; reflexivity.
    + destruct (firstn_short_prints [failed_line status] m status (or_intror eq_refl))
        as [E | E]; rewrite E; [left; reflexivity|right; eauto].
Qed.

Lemma exit_status_and_output_witness :
  exists w,
    run Sample.two_then_empty 2 no_fault 5 0 (fresh []) = Some (1, w)
    /\ (1 = 0 \/ 1 = 1)
    /\ (1 = 0 <->
        snd (process_element Sample.two_then_empty 2 5 (ValueProvider 0)) = Returned
        /\ all_ok (calls w) = true)
    /\ (stdout w = []
        \/ exists status, status <> 200 /\ stdout w = [failed_line status]).
Proof.
  eexists. split; [vm_compute; reflexivity|].
  apply (exit_status_and_output Sample.two_then_empty 2 no_fault 5 (ValueProvider 0) [] 1).
  vm_compute. reflexivity.
Defined.


Lemma insert_all_app rs1 rs2 T :
  insert_all (rs1 ++ rs2) T = insert_all rs2 (insert_all rs1 T).
Proof. unfold insert_all. apply fold_left_app. Qed.




(** * Further properties of the code *)

(** ** The lifecycle of the sink *)

Lemma start_bundle_no_fault w :
  start_bundle no_fault w
  = (inr tt, {| tunnel := Open; conn := Open; cursor := Open; students := students w;
                pending := []; calls := calls w ++ start_calls; stdout := stdout w |}).
Proof.
  destruct w as [t c k T p l o].
  unfold start_bundle, open_ssh_tunnel, invoke, log, set_tunnel, set_conn, set_pending,
    set_cursor. cbn. rewrite <- !app_assoc. reflexivity.
Qed.

Lemma run_bundle_no_fault_from rs w :
  run_bundle no_fault rs w
  = (inr tt, {| tunnel := Closed; conn := Closed; cursor := Closed;
                students := insert_all rs (students w); pending := [];
                calls := calls w ++ start_calls ++ flat_map process_calls rs ++ finish_calls;
                stdout := stdout w |}).
Proof.
  rewrite run_bundle_split, bind_split, start_bundle_no_fault.
  rewrite consume_events_no_fault by (repeat split; reflexivity).
  rewrite finish_bundle_no_fault by (repeat split; reflexivity).
  cbn [students calls stdout]. rewrite yields_map_Yield, prints_map_Yield.
  rewrite app_nil_r, <- !app_assoc. reflexivity.
Qed.

(** X1: when [start_bundle] fails after the tunnel has started, because the
    database refuses the connection or the cursor cannot be made, the bundle
    fails with the tunnel left running (and the connection left open, when
    it was made): nothing is stopped or closed, no element is processed and
    the table is as it was. *)
Theorem failed_start_leaves_the_tunnel_running fault rs T :
  fault 0%nat = false ->
  fault 1%nat = true \/ (fault 1%nat = false /\ fault 2%nat = true) ->
  fst (run_bundle fault rs (fresh T)) = inl MySQLError
  /\ tunnel (snd (run_bundle fault rs (fresh T))) = Open
  /\ conn (snd (run_bundle fault rs (fresh T)))
     = (if fault 1%nat then Unset else Open)
  /\ count is_tunnel_stop (calls (snd (run_bundle fault rs (fresh T)))) = 0%nat
  /\ count is_conn_close (calls (snd (run_bundle fault rs (fresh T)))) = 0%nat
  /\ count is_commit (calls (snd (run_bundle fault rs (fresh T)))) = 0%nat
  /\ students (snd (run_bundle fault rs (fresh T))) = T.
Proof.
  intros H0 H12. unfold run_bundle. rewrite !bind_split.
  unfold start_bundle, open_ssh_tunnel, invoke, fresh. cbn.
  rewrite H0. cbn.
  destruct H12 as [H1 | [H1 H2]]; rewrite H1; cbn; [|rewrite H2; cbn];
    repeat split; reflexivity.
Qed.

Lemma failed_start_leaves_the_tunnel_running_witness :
  fst (run_bundle Scenario.connect_refused Sample.two_records (fresh [])) = inl MySQLError
  /\ tunnel (snd (run_bundle Scenario.connect_refused Sample.two_records (fresh []))) = Open
  /\ conn (snd (run_bundle Scenario.connect_refused Sample.two_records (fresh [])))
     = (if Scenario.connect_refused 1%nat then Unset else Open)
  /\ count is_tunnel_stop
       (calls (snd (run_bundle Scenario.connect_refused Sample.two_records (fresh []))))
     = 0%nat
  /\ count is_conn_close
       (calls (snd (run_bundle Scenario.connect_refused Sample.two_records (fresh []))))
     = 0%nat
  /\ count is_commit
       (calls (snd (run_bundle Scenario.connect_refused Sample.two_records (fresh []))))
     = 0%nat
  /\ students (snd (run_bundle Scenario.connect_refused Sample.two_records (fresh []))) = [].
Proof.
  apply (failed_start_leaves_the_tunnel_running Scenario.connect_refused
           Sample.two_records []).
  - reflexivity.
  - left. reflexivity.
Defined.

Lemma finish_bundle_leased_eq fault w :
  leased w ->
  finish_bundle fault w
  = if fault (List.length (calls w)) then (inl MySQLError, log CursorClose false w)
    else if fault (S (List.length (calls w))) then
      (inl MySQLError,
       {| tunnel := Open; conn := Open; cursor := Closed; students := students w;
          pending := []; calls := calls w ++ [(CursorClose, true); (ConnClose, false)];
          stdout := stdout w |})
    else if fault (S (S (List.length (calls w)))) then
      (inl SSHTunnelError,
       {| tunnel := Open; conn := Closed; cursor := Closed; students := students w;
          pending := [];
          calls := calls w ++ [(CursorClose, true); (ConnClose, true); (TunnelStop, false)];
          stdout := stdout w |})
    else
      (inr tt,
       {| tunnel := Closed; conn := Closed; cursor := Closed; students := students w;
          pending := []; calls := calls w ++ finish_calls; stdout := stdout w |}).
Proof.
  intros (Ht & Hc & Hk & Hp). destruct w as [t c k T p l o]. cbn in *. subst.
  unfold finish_bundle, release, invoke. cbn.
  destruct (fault (List.length l)) eqn:H0; cbn; [reflexivity|].
  rewrite length_app. cbn. rewrite Nat.add_1_r.
  destruct (fault (S (List.length l))) eqn:H1; cbn.
  { unfold log; cbn. rewrite <- app_assoc. reflexivity. }
  rewrite !length_app. cbn. rewrite !Nat.add_1_r.
  destruct (fault (S (S (List.length l)))) eqn:H2; cbn;
    unfold log, set_conn, set_pending, set_cursor, set_tunnel; cbn;
    rewrite <- !app_assoc; reflexivity.
Qed.

(** X2: on a held lease, a [cursor.close()] that raises ends
    [finish_bundle] at once: neither [conn.close()] nor [tunnel.stop()] is
    called and connection and tunnel stay open; a [conn.close()] that raises
    leaves the tunnel running in the same way.  Whenever [finish_bundle]
    raises, the tunnel is still up. *)
Theorem failed_close_skips_the_later_releases fault w :
  leased w ->
  (fault (List.length (calls w)) = true ->
     finish_bundle fault w = (inl MySQLError, log CursorClose false w))
  /\ (fault (List.length (calls w)) = false ->
      fault (S (List.length (calls w))) = true ->
      fst (finish_bundle fault w) = inl MySQLError
      /\ calls (snd (finish_bundle fault w))
         = calls w ++ [(CursorClose, true); (ConnClose, false)]
      /\ conn (snd (finish_bundle fault w)) = Open
      /\ tunnel (snd (finish_bundle fault w)) = Open)
  /\ (fst (finish_bundle fault w) <> inr tt ->
      tunnel (snd (finish_bundle fault w)) = Open).
Proof.
  intros Hl. rewrite (finish_bundle_leased_eq fault w Hl).
  destruct Hl as (Ht & Hc & Hk & Hp).
  destruct (fault (List.length (calls w)));
    [|destruct (fault (S (List.length (calls w))));
      [|destruct (fault (S (S (List.length (calls w)))))]];
    cbn [fst snd calls tunnel conn log];
    repeat split; try discriminate; try assumption; try reflexivity;
    intros H; first [assumption | reflexivity | exfalso; apply H; reflexivity].
Qed.

Lemma failed_close_skips_the_later_releases_witness :
  finish_bundle Scenario.cursor_close_fails Scenario.held_lease
  = (inl MySQLError, log CursorClose false Scenario.held_lease).
Proof.
  apply (failed_close_skips_the_later_releases Scenario.cursor_close_fails
           Scenario.held_lease).
  - repeat split; reflexivity.
  - reflexivity.
Defined.

(** X3: before [start_bundle] has run (the cursor attribute is still
    [None]) [process] raises AttributeError without any external call: the
    table, the pending writes and the call log are unchanged, whatever the
    element and the fault schedule; [finish_bundle] does the same. *)
Theorem use_before_start_bundle_raises fault s w :
  cursor w = Unset ->
  InsertToMySQL.process fault s w = (inl AttributeError, w)
  /\ finish_bundle fault w = (inl AttributeError, w).
Proof.
  intros H. unfold InsertToMySQL.process, insert_data_to_mysql, finish_bundle, use, release.
  rewrite !bind_split, H. split; reflexivity.
Qed.

Lemma use_before_start_bundle_raises_witness :
  InsertToMySQL.process Sample.second_insert_fails (Sample.elem "A1" "Informatika")
    (fresh Sample.two_records)
  = (inl AttributeError, fresh Sample.two_records)
  /\ finish_bundle Sample.second_insert_fails (fresh Sample.two_records)
     = (inl AttributeError, fresh Sample.two_records).
Proof.
  apply (use_before_start_bundle_raises Sample.second_insert_fails
           (Sample.elem "A1" "Informatika") (fresh Sample.two_records)).
  reflexivity.
Defined.

(** X4: bundles compose.  Without faults, a bundle over [rs1] followed by
    a bundle over [rs2] on the same DoFn leaves the table that one bundle
    over [rs1 ++ rs2] leaves; each bundle opens a tunnel and a connection of
    its own and releases them, so the log shows two starts, two closes and
    two stops, and everything is closed at the end. *)
Theorem successive_bundles_compose rs1 rs2 T :
  fst (run_bundle no_fault rs2 (snd (run_bundle no_fault rs1 (fresh T)))) = inr tt
  /\ students (snd (run_bundle no_fault rs2 (snd (run_bundle no_fault rs1 (fresh T)))))
     = students (snd (run_bundle no_fault (rs1 ++ rs2) (fresh T)))
  /\ students (snd (run_bundle no_fault rs2 (snd (run_bundle no_fault rs1 (fresh T)))))
     = insert_all rs2 (insert_all rs1 T)
  /\ calls (snd (run_bundle no_fault rs2 (snd (run_bundle no_fault rs1 (fresh T)))))
     = (start_calls ++ flat_map process_calls rs1 ++ finish_calls)
       ++ (start_calls ++ flat_map process_calls rs2 ++ finish_calls)
  /\ tunnel (snd (run_bundle no_fault rs2 (snd (run_bundle no_fault rs1 (fresh T)))))
     = Closed
  /\ conn (snd (run_bundle no_fault rs2 (snd (run_bundle no_fault rs1 (fresh T)))))
     = Closed.
Proof.
  rewrite !run_bundle_no_fault_from. cbn [fst snd students calls tunnel conn fresh app].
  rewrite insert_all_app. repeat split.
Qed.

(** ** The fetch loop at its edges *)

(** X5: an exception of [requests.post] is not caught.  When the request
    for page n fails, after any number of pages, the generator raises with
    the records of the earlier pages yielded; there is no retry and no
    further request, and nothing is printed. *)
Theorem request_failure_propagates api query_limit start n fuel :
  all_continue api query_limit n start ->
  api (request query_limit (start + Z.of_nat n * query_limit)) = None ->
  FetchGraphQLData.process api query_limit (n + S fuel) start
  = (pages api query_limit n start
       ++ [Post (request query_limit (start + Z.of_nat n * query_limit))],
     Raised RequestException)
  /\ List.length
       (posts (fst (FetchGraphQLData.process api query_limit (n + S fuel) start)))
     = S n
  /\ yields (fst (FetchGraphQLData.process api query_limit (n + S fuel) start))
     = yields (pages api query_limit n start)
  /\ prints (fst (FetchGraphQLData.process api query_limit (n + S fuel) start)) = [].
Proof.
  intros Hn Hr.
  assert (Hp : FetchGraphQLData.process api query_limit (n + S fuel) start
               = (pages api query_limit n start
                    ++ [Post (request query_limit (start + Z.of_nat n * query_limit))],
                  Raised RequestException)).
  { unfold FetchGraphQLData.process. rewrite (loop_pages _ _ _ _ _ Hn).
    rewrite (loop_raise _ _ _ _ RequestException);
      rewrite (iteration_no_response _ _ _ Hr); reflexivity. }
  split; [exact Hp|]. rewrite Hp. cbn [fst].
  rewrite posts_app, yields_app, prints_app, length_app, posts_pages,
    (prints_pages _ _ _ _ Hn).
  cbn. rewrite app_nil_r. repeat split. lia.
Qed.

Lemma request_failure_propagates_witness :
  FetchGraphQLData.process Scenario.unreachable_after_first 2 (1 + 4) 0
  = ([Post (request 2 0); Yield (Sample.elem "A1" "Informatika");
      Yield (Sample.elem "A2" "Fisika"); Post (request 2 2)],
     Raised RequestException)
  /\ List.length
       (posts (fst (FetchGraphQLData.process Scenario.unreachable_after_first 2 (1 + 4) 0)))
     = 2%nat
  /\ yields (fst (FetchGraphQLData.process Scenario.unreachable_after_first 2 (1 + 4) 0))
     = Sample.two_records
  /\ prints (fst (FetchGraphQLData.process Scenario.unreachable_after_first 2 (1 + 4) 0))
     = [].
Proof.
  apply (request_failure_propagates Scenario.unreachable_after_first 2 0 1 3).
  - intros i Hi. assert (i = 0%nat) by lia. subst i. reflexivity.
  - reflexivity.
Defined.



(** X7: a page whose items are dicts with both keys yields one element per
    item, in the order of the list, carrying the two values as they are
    (of whatever JSON type) and nothing of the other keys; the pass then
    reaches the cursor update. *)
Theorem page_yields_one_element_per_item
    api query_limit offset response data items elements :
  api (request query_limit offset) = Some response ->
  status_code response = 200 ->
  json_body response = Some data ->
  extract data = inr (JArr items) ->
  items <> [] ->
  Forall2 (fun it s => exists kvs,
             it = JObj kvs
             /\ dict_lookup "nim" kvs = Some (nim s)
             /\ dict_lookup "nama_program_studi" kvs = Some (nama_program_studi s))
          items elements ->
  iteration api query_limit offset
  = (Post (request query_limit offset) :: map Yield elements, inr Continue)
  /\ yields (fst (iteration api query_limit offset)) = elements
  /\ List.length elements = List.length items.
Proof.
  intros Hr Hs Hb He Hne Hall.
  assert (Hy : yield_all items = (map Yield elements, inr tt)).
  { clear Hne He. induction Hall as [|it s items elements (kvs & -> & Hn & Hp) _ IH];
      [reflexivity|].
    cbn [yield_all]. unfold as_student at 1. cbn [getitem].
    rewrite Hn, Hp, IH. destruct s; reflexivity. }
  assert (Hit : iteration api query_limit offset
                = (Post (request query_limit offset) :: map Yield elements, inr Continue)).
  { rewrite (iteration_200 _ _ _ _ Hr Hs), Hb, He.
    destruct items as [|it items]; [contradiction|]. cbn [truthy iter].
    rewrite Hy. reflexivity. }
  split; [exact Hit|]. split.
  - rewrite Hit. cbn [fst yields]. apply yields_map_Yield.
  - symmetry. eapply Forall2_length. exact Hall.
Qed.

Lemma page_yields_one_element_per_item_witness :
  iteration Sample.two_then_empty 2 0
  = (Post (request 2 0) :: map Yield Sample.two_records, inr Continue)
  /\ yields (fst (iteration Sample.two_then_empty 2 0)) = Sample.two_records
  /\ List.length Sample.two_records
     = List.length [Sample.item "A1" "Informatika"; Sample.item "A2" "Fisika"].
Proof.
  apply (page_yields_one_element_per_item Sample.two_then_empty 2 0
           {| status_code := 200;
              json_body := Some (JObj [("data", JObj [("data",
                 JArr [Sample.item "A1" "Informatika"; Sample.item "A2" "Fisika"])])]) |}
           (JObj [("data", JObj [("data",
                 JArr [Sample.item "A1" "Informatika"; Sample.item "A2" "Fisika"])])])).
  - reflexivity.
  - reflexivity.
  - reflexivity.
  - reflexivity.
  - discriminate.
  - repeat constructor; eexists; repeat split; reflexivity.
Defined.

Lemma loop_zero_limit api fuel : forall start,
  snd (iteration api 0 start) = inr Continue ->
  snd (loop api 0 fuel start) = OutOfFuel
  /\ List.length (posts (fst (loop api 0 fuel start))) = fuel
  /\ yields (fst (loop api 0 fuel start))
     = List.concat (repeat (yields (fst (iteration api 0 start))) fuel).
Proof.
  induction fuel as [|fuel IH]; intros start Hc; [repeat split|].
  rewrite (loop_continue _ _ _ _ Hc). cbn [fst snd].
  replace (start + 0) with start by lia.
  destruct (IH start Hc) as (Ho & Hl & Hy).
  rewrite posts_app, posts_iteration, yields_app, Ho, Hy. cbn [app List.length].
  rewrite Hl. repeat split.
Qed.

(** X8: the page limit is not checked.  With a limit of 0 every request of
    a run asks for the start offset; when the page there is not empty and
    well formed the loop never ends: whatever the number of passes allowed,
    it has neither returned nor raised, and it has requested and yielded the
    same page in each pass. *)
Theorem zero_limit_never_advances api fuel start :
  (forall k rq,
     nth_error (posts (fst (FetchGraphQLData.process api 0 fuel start))) k = Some rq ->
     rq = request 0 start)
  /\ (snd (iteration api 0 start) = inr Continue ->
      snd (FetchGraphQLData.process api 0 fuel start) = OutOfFuel
      /\ List.length (posts (fst (FetchGraphQLData.process api 0 fuel start))) = fuel
      /\ yields (fst (FetchGraphQLData.process api 0 fuel start))
         = List.concat (repeat (yields (fst (iteration api 0 start))) fuel)).
Proof.
  split.
  - intros k rq H. apply loop_posts_nth in H. subst rq. f_equal. lia.
  - apply loop_zero_limit.
Qed.

Lemma zero_limit_never_advances_witness :
  snd (FetchGraphQLData.process Scenario.same_page_forever 0 7 0) = OutOfFuel
  /\ List.length (posts (fst (FetchGraphQLData.process Scenario.same_page_forever 0 7 0)))
     = 7%nat
  /\ yields (fst (FetchGraphQLData.process Scenario.same_page_forever 0 7 0))
     = List.concat (repeat (yields (fst (iteration Scenario.same_page_forever 0 0))) 7).
Proof.
  apply (proj2 (zero_limit_never_advances Scenario.same_page_forever 7 0)).
  reflexivity.
Defined.

(** ** The table under any faults *)

Lemma upsert_grows table s :
  exists added,
    upsert table s = table ++ added
    /\ (forall row, In row added -> row = s /\ ~ In (nim row) (keys table)).
Proof.
  unfold upsert. destruct (has_key (nim s) table) eqn:E.
  - exists []. rewrite app_nil_r. split; [reflexivity|intros row []].
  - exists [s]. split; [reflexivity|]. intros row [<- | []]. split; [reflexivity|].
    intros Hin. apply has_key_In in Hin. congruence.
Qed.

Lemma insert_all_grows rs : forall table,
  exists added,
    insert_all rs table = table ++ added
    /\ (forall row, In row added -> In row rs /\ ~ In (nim row) (keys table)).
Proof.
  induction rs as [|s rs IH]; intros table; cbn.
  - exists []. rewrite app_nil_r. split; [reflexivity|intros row []].
  - destruct (upsert_grows table s) as (a1 & E1 & H1).
    destruct (IH (upsert table s)) as (a2 & E2 & H2).
    exists (a1 ++ a2). unfold insert_all in E2. rewrite E2, E1, app_assoc.
    split; [reflexivity|]. intros row Hin. apply in_app_or in Hin.
    destruct Hin as [Hin | Hin].
    + destruct (H1 row Hin) as [-> Hk]. split; [left; reflexivity|exact Hk].
    + destruct (H2 row Hin) as [Hr Hk]. split; [right; exact Hr|].
      intros Hin'. apply Hk. rewrite E1. unfold keys. rewrite map_app.
      apply in_or_app. left. exact Hin'.
Qed.

Lemma students_of_end T ys res w :
  bundle_end T ys res w ->
  exists k, students w = insert_all (firstn k ys) T.
Proof.
  intros H.
  destruct H as
    [ l t c e w Hfail Htun Hconn Hcur Hstud Hcalls
    | k s extra w Hnth Hfail Htun Hconn Hcur Hstud Hcalls
    | e w Htun Hconn Hcur Hstud Hcalls
    | l k c e w Hfail Htun Hconn Hcur Hstud Hcalls
    | w Htun Hconn Hcur Hstud Hcalls ].
  - exists 0%nat. exact Hstud.
  - exists k. exact Hstud.
  - exists (List.length ys). rewrite firstn_all. exact Hstud.
  - exists (List.length ys). rewrite firstn_all. exact Hstud.
  - exists (List.length ys). rewrite firstn_all. exact Hstud.
Qed.

(** X9: the sink only appends.  After a bundle, whatever calls failed, the
    table is the table before it followed by new rows: no earlier row is
    removed, moved or changed.  Every new row is one of the bundle's elements
    and its key was not in the table before, so an element whose key is
    already there never replaces the row (the first value written for a key
    stays); and a table without duplicate keys stays without. *)
Theorem the_sink_only_appends fault rs T :
  exists added,
    students (snd (run_bundle fault rs (fresh T))) = T ++ added
    /\ (forall row, In row added -> In row rs /\ ~ In (nim row) (keys T))
    /\ (forall row, In row T -> In row (students (snd (run_bundle fault rs (fresh T)))))
    /\ (NoDup (keys T) -> NoDup (keys (students (snd (run_bundle fault rs (fresh T)))))).
Proof.
  destruct (students_of_end _ _ _ _ (run_bundle_ends fault rs T)) as (k & Hk).
  destruct (insert_all_grows (firstn k rs) T) as (added & E & Hadd).
  exists added. rewrite Hk. split; [exact E|]. split; [|split].
  - intros row Hin. destruct (Hadd row Hin) as [Hr Hn]. split; [|exact Hn].
    rewrite <- (firstn_skipn k rs). apply in_or_app. left. exact Hr.
  - intros row Hin. rewrite E. apply in_or_app. left. exact Hin.
  - apply NoDup_insert_all.
Qed.

Lemma calls_of_end T ys res w :
  bundle_end T ys res w ->
  exists done tail,
    calls w = done ++ tail /\ all_ok done = true
    /\ (tail = [] \/ exists c, tail = [(c, false)]).
Proof.
  intros H.
  destruct H as
    [ l t c e w Hfail Htun Hconn Hcur Hstud Hcalls
    | k s extra w Hnth Hfail Htun Hconn Hcur Hstud Hcalls
    | e w Htun Hconn Hcur Hstud Hcalls
    | l k c e w Hfail Htun Hconn Hcur Hstud Hcalls
    | w Htun Hconn Hcur Hstud Hcalls ]; rewrite Hcalls.
  - destruct Hfail.
    + exists [], [(TunnelStart, false)]. repeat split. right. eauto.
    + exists [(TunnelStart, true)], [(Connect, false)]. repeat split. right. eauto.
    + exists [(TunnelStart, true); (Connect, true)], [(NewCursor, false)].
      repeat split. right. eauto.
  - destruct Hfail.
    + exists (start_calls ++ flat_map process_calls (firstn k ys)), [execute_call s false].
      split; [reflexivity|]. split; [|right; unfold execute_call; eauto].
      rewrite all_ok_app, all_ok_process_calls. reflexivity.
    + exists (start_calls ++ flat_map process_calls (firstn k ys) ++ [execute_call s true]),
        [(Commit, false)].
      split; [rewrite <- !app_assoc; reflexivity|]. split; [|right; eauto].
      rewrite !all_ok_app, all_ok_process_calls. reflexivity.
  - exists (start_calls ++ flat_map process_calls ys), []. rewrite app_nil_r.
    split; [reflexivity|]. split; [|left; reflexivity].
    rewrite all_ok_app, all_ok_process_calls. reflexivity.
  - destruct Hfail.
    + exists (start_calls ++ flat_map process_calls ys), [(CursorClose, false)].
      split; [rewrite <- !app_assoc; reflexivity|]. split; [|right; eauto].
      rewrite all_ok_app, all_ok_process_calls. reflexivity.
    + exists (start_calls ++ flat_map process_calls ys ++ [(CursorClose, true)]),
        [(ConnClose, false)].
      split; [rewrite <- !app_assoc; reflexivity|]. split; [|right; eauto].
      rewrite !all_ok_app, all_ok_process_calls. reflexivity.
    + exists (start_calls ++ flat_map process_calls ys
                ++ [(CursorClose, true); (ConnClose, true)]), [(TunnelStop, false)].
      split; [rewrite <- !app_assoc; reflexivity|]. split; [|right; eauto].
      rewrite !all_ok_app, all_ok_process_calls. reflexivity.
  - exists (start_calls ++ flat_map process_calls ys ++ finish_calls), [].
    rewrite app_nil_r. split; [reflexivity|]. split; [|left; reflexivity].
    rewrite !all_ok_app, all_ok_process_calls. reflexivity.
Qed.

Lemma run_bundle_failure_is_logged fault rs T :
  all_ok (calls (snd (run_bundle fault rs (fresh T)))) = true ->
  fst (run_bundle fault rs (fresh T)) = inr tt.
Proof.
  rewrite run_bundle_split.
  destruct (start_and_consume fault T (map Yield rs)) as (res & w & Hr & Hcases).
  rewrite Hr.
  destruct Hcases as [(l & t & c & e & Hf & -> & ->)
                     | [(k & s & extra & m & -> & Hn & Hp & Ht & Hc & Hk & Hs & Hl & _)
                       | (-> & Hl & Hs & Hc & _)]].
  - cbn [fst snd calls]. intros Hok. destruct Hf; discriminate.
  - cbn [fst snd]. intros Hok. rewrite Hl, !all_ok_app in Hok.
    destruct Hp; cbn in Hok; rewrite ?andb_false_r in Hok; discriminate.
  - destruct (finish_bundle_leased fault w Hl) as [Hf | (l & k & c & e & Hf & He)].
    + rewrite Hf. reflexivity.
    + rewrite He. cbn [fst snd calls]. intros Hok. rewrite all_ok_app in Hok.
      destruct Hf; cbn in Hok; rewrite ?andb_false_r in Hok; discriminate.
Qed.

(** X10: the sink stops at the first external call that raises.  The call
    log of a bundle is a run of calls that succeeded followed by at most one
    call that raised, which is then the last call: nothing is retried and
    nothing is called after a failure.  The bundle succeeds exactly when no
    call of its log raised. *)
Theorem first_failure_is_the_last_call fault rs T :
  (exists done tail,
     calls (snd (run_bundle fault rs (fresh T))) = done ++ tail
     /\ all_ok done = true
     /\ (tail = [] \/ exists c, tail = [(c, false)]))
  /\ (fst (run_bundle fault rs (fresh T)) = inr tt
      <-> all_ok (calls (snd (run_bundle fault rs (fresh T)))) = true).
Proof.
  split.
  - eapply calls_of_end. apply run_bundle_ends.
  - split; [|apply run_bundle_failure_is_logged].
    intros Hres. pose proof (run_bundle_ends fault rs T) as H.
    rewrite Hres in H.
    inversion H as [ | | | | w Htun Hconn Hcur Hstud Hcalls]; subst.
    rewrite Hcalls, !all_ok_app, all_ok_process_calls. reflexivity.
Qed.

(** ** The entry point *)

